(** * RobotTrajectory: waypoints and the durations between them

    A shallow embedding of the inline member functions of
    [robot_trajectory::RobotTrajectory]
    (moveit_core/robot_trajectory/include/moveit/robot_trajectory/robot_trajectory.h)
    and a verification of the bookkeeping of its two deques. *)

From Stdlib Require Import Floats.
From stdpp Require Import base numbers option list gmap strings.

(** ** Machine types *)

(** [std::size_t] on the LP64 targets the library is built for: an
    unsigned 64-bit integer, carried as an [N] below [modulus]; the
    only arithmetic the header does on it is [index + 1]. *)
Module SizeT.
Definition width : N := 64.
Definition modulus : N := 2 ^ width.
Definition SIZE_MAX : N := modulus - 1.

(** Unsigned addition wraps around. *)
Definition add (a b : N) : N := (a + b) `mod` modulus.
End SizeT.

(** [double]: the header only stores, copies and returns durations and
    writes the literal [0.0]; no floating-point arithmetic is done. *)
Definition double : Type := float.
Definition zero : double := 0%float.

(** ** Outcomes of a call *)

(** A member function either returns, or trips an [assert], or runs
    into undefined behaviour (an access outside a deque, a null
    pointer dereference). Storage is taken to be unbounded: growing a
    deque never throws. The real [std::deque] throws
    [std::length_error] once a size passes [max_size()] (and
    [std::bad_alloc] when memory runs out), so a call that grows a
    deque may return here where it throws there; what is proved of such
    a call is proved of its return. *)
Inductive outcome (A : Type) : Type :=
| Ok (a : A)
| AssertFail
| Undefined.
Arguments Ok {A} a.
Arguments AssertFail {A}.
Arguments Undefined {A}.

(** ** [std::deque] as a list, front first *)
Module Deque.
Section Ops.
Context {A : Type}.
Implicit Types (d : list A) (i n : N) (x : A).

Definition size d : N := N.of_nat (length d).

(** [d[i]] read: defined only inside the deque. *)
Definition at_ d i : outcome A :=
  if (i <? size d)%N
  then match d !! N.to_nat i with
       | Some x => Ok x
       | None => Undefined
       end
  else Undefined.

(** [d[i] = x]: defined only inside the deque. *)
Definition assign d i x : outcome (list A) :=
  if (i <? size d)%N then Ok (<[N.to_nat i := x]> d) else Undefined.

(** [d.resize(n, x)]: truncate to [n] elements or pad with copies
    of [x] at the back. *)
Definition resize_ d n x : list A := resize (N.to_nat n) x d.

Definition push_back d x : list A := d ++ [x].
Definition push_front d x : list A := x :: d.

(** [d.insert(d.begin() + i, x)]: the iterator must lie in
    [begin(), end()]. *)
Definition insert_ d i x : outcome (list A) :=
  if (i <=? size d)%N
  then Ok (take (N.to_nat i) d ++ x :: drop (N.to_nat i) d)
  else Undefined.

Definition clear d : list A := [].
End Ops.
End Deque.

(** ** Robot states behind shared pointers *)

(** [moveit::core::RobotStatePtr] is a [std::shared_ptr<RobotState>]:
    either null or the address of a live state. *)
Definition loc : Type := positive.
Definition RobotStatePtr : Type := option loc.

(** ** The trajectory object *)

(** The two deques of the class. The members [robot_model_] and
    [group_] are neither read nor written by the functions embedded
    here and are left out. *)
Record RobotTrajectory : Type := mkRobotTrajectory {
  waypoints_ : list RobotStatePtr;
  duration_from_previous_ : list double
}.

(** What every constructor leaves in the two deques. *)
Definition empty_trajectory : RobotTrajectory :=
  {| waypoints_ := []; duration_from_previous_ := [] |}.

(** The invariant that [size()], [begin()] and [end()] assert. *)
Definition size_invariant (t : RobotTrajectory) : Prop :=
  Deque.size (waypoints_ t) = Deque.size (duration_from_previous_ t).

(** ** Member functions *)

Section Members.
(** [moveit::core::RobotState] and its member [update()] are declared
    in moveit/robot_state/robot_state.h, which this header only
    includes; they are taken as parameters. *)
Variable RobotState : Type.
Variable update : RobotState → RobotState.

(** A call runs on the object it is invoked on ([self]) and on the
    store holding the robot states that shared pointers point to. The
    store is never shrunk: a state whose last [shared_ptr] is destroyed
    (as [clear()] does to the states the trajectory alone owns) stays
    in it, and nothing is stated about such a state. *)
Record World : Type := mkWorld {
  heap : gmap loc RobotState;
  self : RobotTrajectory
}.

Definition M (A : Type) : Type := World → outcome (A * World).

#[global] Instance M_ret : MRet M := λ A a w, Ok (a, w).
#[global] Instance M_bind : MBind M := λ A B f m w,
  match m w with
  | Ok (a, w') => f a w'
  | AssertFail => AssertFail
  | Undefined => Undefined
  end.

Definition lift {A} (o : outcome A) : M A := λ w,
  match o with
  | Ok a => Ok (a, w)
  | AssertFail => AssertFail
  | Undefined => Undefined
  end.

(** [assert(b)] in a build without [NDEBUG]. *)
Definition assert_ (b : bool) : M unit := λ w,
  if b then Ok ((), w) else AssertFail.

Definition get_waypoints : M (list RobotStatePtr) := λ w,
  Ok (waypoints_ (self w), w).
Definition get_durations : M (list double) := λ w,
  Ok (duration_from_previous_ (self w), w).
Definition set_waypoints (ws : list RobotStatePtr) : M unit := λ w,
  Ok ((), {| heap := heap w;
             self := {| waypoints_ := ws;
                        duration_from_previous_ := duration_from_previous_ (self w) |} |}).
Definition set_durations (ds : list double) : M unit := λ w,
  Ok ((), {| heap := heap w;
             self := {| waypoints_ := waypoints_ (self w);
                        duration_from_previous_ := ds |} |}).

(** [std::make_shared<RobotState>(state)]: a copy at a fresh address. *)
Definition make_shared (state : RobotState) : M RobotStatePtr := λ w,
  let l := fresh (dom (heap w)) in
  Ok (Some l, {| heap := <[l := state]> (heap w); self := self w |}).

(** [state->update()]: dereferencing a null pointer is undefined. *)
Definition deref_update (state : RobotStatePtr) : M unit := λ w,
  match state with
  | None => Undefined
  | Some l =>
      match heap w !! l with
      | Some s => Ok ((), {| heap := <[l := update s]> (heap w); self := self w |})
      | None => Undefined
      end
  end.

Definition getWayPointCount : M N :=
  ws ← get_waypoints; mret (Deque.size ws).

Definition size : M N :=
  ws ← get_waypoints;
  ds ← get_durations;
  assert_ (Deque.size ws =? Deque.size ds)%N;;
  mret (Deque.size ws).

Definition getWayPointDurations : M (list double) := get_durations.

Definition getWayPointDurationFromPrevious (index : N) : M double :=
  ds ← get_durations;
  if (index <? Deque.size ds)%N
  then lift (Deque.at_ ds index)
  else mret zero.

Definition setWayPointDurationFromPrevious (index : N) (value : double) : M unit :=
  ds ← get_durations;
  (if (Deque.size ds <=? index)%N
   then set_durations (Deque.resize_ ds (SizeT.add index 1) zero)
   else mret ());;
  ds' ← get_durations;
  ds'' ← lift (Deque.assign ds' index value);
  set_durations ds''.

Definition empty : M bool :=
  ws ← get_waypoints; mret (bool_decide (ws = [])).

(** The overloads taking a [RobotStatePtr]. *)
Definition addSuffixWayPoint_ptr (state : RobotStatePtr) (dt : double) : M unit :=
  deref_update state;;
  ws ← get_waypoints;
  set_waypoints (Deque.push_back ws state);;
  ds ← get_durations;
  set_durations (Deque.push_back ds dt).

Definition addPrefixWayPoint_ptr (state : RobotStatePtr) (dt : double) : M unit :=
  deref_update state;;
  ws ← get_waypoints;
  set_waypoints (Deque.push_front ws state);;
  ds ← get_durations;
  set_durations (Deque.push_front ds dt).

Definition insertWayPoint_ptr (index : N) (state : RobotStatePtr) (dt : double) : M unit :=
  deref_update state;;
  ws ← get_waypoints;
  ws' ← lift (Deque.insert_ ws index state);
  set_waypoints ws';;
  ds ← get_durations;
  ds' ← lift (Deque.insert_ ds index dt);
  set_durations ds'.

(** The overloads taking a [const RobotState&]. *)
Definition addSuffixWayPoint (state : RobotState) (dt : double) : M unit :=
  p ← make_shared state; addSuffixWayPoint_ptr p dt.

Definition addPrefixWayPoint (state : RobotState) (dt : double) : M unit :=
  p ← make_shared state; addPrefixWayPoint_ptr p dt.

Definition insertWayPoint (index : N) (state : RobotState) (dt : double) : M unit :=
  p ← make_shared state; insertWayPoint_ptr index p dt.

Definition clear : M unit :=
  ws ← get_waypoints;
  set_waypoints (Deque.clear ws);;
  ds ← get_durations;
  set_durations (Deque.clear ds).

(** ** Sequences of public calls *)

Inductive call : Type :=
| AddSuffixWayPoint (state : RobotState) (dt : double)
| AddSuffixWayPointPtr (state : RobotStatePtr) (dt : double)
| AddPrefixWayPoint (state : RobotState) (dt : double)
| AddPrefixWayPointPtr (state : RobotStatePtr) (dt : double)
| InsertWayPoint (index : N) (state : RobotState) (dt : double)
| InsertWayPointPtr (index : N) (state : RobotStatePtr) (dt : double)
| SetWayPointDurationFromPrevious (index : N) (value : double)
| Clear.

Definition run (c : call) : M unit :=
  match c with
  | AddSuffixWayPoint s dt => addSuffixWayPoint s dt
  | AddSuffixWayPointPtr p dt => addSuffixWayPoint_ptr p dt
  | AddPrefixWayPoint s dt => addPrefixWayPoint s dt
  | AddPrefixWayPointPtr p dt => addPrefixWayPoint_ptr p dt
  | InsertWayPoint i s dt => insertWayPoint i s dt
  | InsertWayPointPtr i p dt => insertWayPoint_ptr i p dt
  | SetWayPointDurationFromPrevious i v => setWayPointDurationFromPrevious i v
  | Clear => clear
  end.

(** An index argument is a [std::size_t]. *)
Definition well_typed (c : call) : Prop :=
  match c with
  | InsertWayPoint i _ _ | InsertWayPointPtr i _ _
  | SetWayPointDurationFromPrevious i _ => (i ≤ SizeT.SIZE_MAX)%N
  | _ => True
  end.

(** A freshly constructed trajectory, with whatever robot states
    already live in the store. *)
Definition initial (h : gmap loc RobotState) : World :=
  {| heap := h; self := empty_trajectory |}.

(** The worlds reached from a fresh trajectory by calls that return. *)
Inductive reachable : World → Prop :=
| reachable_initial h : reachable (initial h)
| reachable_call w c w' :
    reachable w → well_typed c → run c w = Ok ((), w') → reachable w'.
End Members.

Arguments heap {RobotState} _.
Arguments self {RobotState} _.
Arguments mkWorld {RobotState} _ _.
Arguments lift {RobotState A} _ _.
Arguments assert_ {RobotState} _ _.
Arguments get_waypoints {RobotState} _.
Arguments get_durations {RobotState} _.
Arguments set_waypoints {RobotState} _ _.
Arguments set_durations {RobotState} _ _.
Arguments make_shared {RobotState} _ _.
Arguments deref_update {RobotState} _ _ _.
Arguments getWayPointCount {RobotState} _.
Arguments size {RobotState} _.
Arguments getWayPointDurations {RobotState} _.
Arguments getWayPointDurationFromPrevious {RobotState} _ _.
Arguments setWayPointDurationFromPrevious {RobotState} _ _ _.
Arguments empty {RobotState} _.
Arguments addSuffixWayPoint_ptr {RobotState} _ _ _ _.
Arguments addPrefixWayPoint_ptr {RobotState} _ _ _ _.
Arguments insertWayPoint_ptr {RobotState} _ _ _ _ _.
Arguments addSuffixWayPoint {RobotState} _ _ _ _.
Arguments addPrefixWayPoint {RobotState} _ _ _ _.
Arguments insertWayPoint {RobotState} _ _ _ _ _.
Arguments clear {RobotState} _.
Arguments AddSuffixWayPoint {RobotState} _ _.
Arguments AddSuffixWayPointPtr {RobotState} _ _.
Arguments AddPrefixWayPoint {RobotState} _ _.
Arguments AddPrefixWayPointPtr {RobotState} _ _.
Arguments InsertWayPoint {RobotState} _ _ _.
Arguments InsertWayPointPtr {RobotState} _ _ _.
Arguments SetWayPointDurationFromPrevious {RobotState} _ _.
Arguments Clear {RobotState}.
Arguments run {RobotState} _ _ _.
Arguments well_typed {RobotState} _.
Arguments initial {RobotState} _.
Arguments reachable {RobotState} _ _.

(** ** What the setter promises *)

(** The durations [ds'] left by [setWayPointDurationFromPrevious(index,
    value)] on durations [ds]: [value] sits at [index], the deque is
    at least [index + 1] long, the positions created in between hold
    [0.0], and every other old position keeps its entry. *)
Definition durations_after_set
    (ds : list double) (index : N) (value : double) (ds' : list double) : Prop :=
  ds' !! N.to_nat index = Some value ∧
  (index + 1 ≤ Deque.size ds')%N ∧
  (∀ j : N, (Deque.size ds ≤ j)%N → (j < index)%N → ds' !! N.to_nat j = Some zero) ∧
  (∀ j : N, j ≠ index → (j < Deque.size ds)%N → ds' !! N.to_nat j = ds !! N.to_nat j).

(** The call returns and leaves such durations behind. *)
Definition setWayPointDurationFromPrevious_post {RobotState : Type}
    (w : World RobotState) (index : N) (value : double) : Prop :=
  ∃ w' : World RobotState,
    setWayPointDurationFromPrevious index value w = Ok ((), w') ∧
    durations_after_set (duration_from_previous_ (self w)) index value
                        (duration_from_previous_ (self w')).

(** ** Calls that lengthen only the durations *)

(** [setWayPointDurationFromPrevious] takes its resizing path when the
    index is at or past the end of the duration deque. *)
Definition grows_durations {RobotState : Type}
    (w : World RobotState) (c : call RobotState) : Prop :=
  match c with
  | SetWayPointDurationFromPrevious index _ =>
      (Deque.size (duration_from_previous_ (self w)) ≤ index)%N
  | _ => False
  end.

(** The worlds reached from a fresh trajectory by returning calls none
    of which takes the resizing path. *)
Inductive reachable_in_range {RobotState : Type} (update : RobotState → RobotState) :
    World RobotState → Prop :=
| in_range_initial h : reachable_in_range update (initial h)
| in_range_call w c w' :
    reachable_in_range update w → well_typed c → ¬ grows_durations w c →
    run update c w = Ok ((), w') → reachable_in_range update w'.

(** ** Waypoint accessors *)

(** [d.front()] and [d.back()]: undefined on an empty deque. *)
Module DequeEnds.
Section Ops.
Context {A : Type}.
Implicit Types (d : list A).

Definition front d : outcome A :=
  match d with
  | [] => Undefined
  | x :: _ => Ok x
  end.

Definition back d : outcome A :=
  match last d with
  | Some x => Ok x
  | None => Undefined
  end.
End Ops.
End DequeEnds.

Section Accessors.
Context {RobotState : Type}.

(** [*p] for a shared pointer [p]. *)
Definition deref (p : RobotStatePtr) : M RobotState RobotState := λ w,
  match p with
  | None => Undefined
  | Some l =>
      match heap w !! l with
      | Some s => Ok (s, w)
      | None => Undefined
      end
  end.

(** The accessors returning [RobotStatePtr&]; what is modelled is the
    pointer read through the reference at the time of the call. *)
Definition getWayPointPtr (index : N) : M RobotState RobotStatePtr :=
  ws ← get_waypoints; lift (Deque.at_ ws index).

Definition getLastWayPointPtr : M RobotState RobotStatePtr :=
  ws ← get_waypoints; lift (DequeEnds.back ws).

Definition getFirstWayPointPtr : M RobotState RobotStatePtr :=
  ws ← get_waypoints; lift (DequeEnds.front ws).

(** The accessors returning [const RobotState&]. *)
Definition getWayPoint (index : N) : M RobotState RobotState :=
  ws ← get_waypoints; p ← lift (Deque.at_ ws index); deref p.

Definition getLastWayPoint : M RobotState RobotState :=
  ws ← get_waypoints; p ← lift (DequeEnds.back ws); deref p.

Definition getFirstWayPoint : M RobotState RobotState :=
  ws ← get_waypoints; p ← lift (DequeEnds.front ws); deref p.
End Accessors.

(** Every stored waypoint pointer is non-null and points to a robot
    state in the store. *)
Definition waypoints_live {RobotState : Type} (w : World RobotState) : Prop :=
  Forall (λ p : RobotStatePtr, ∃ l, p = Some l ∧ is_Some (heap w !! l))
         (waypoints_ (self w)).

(** ** The iterator over (waypoint, duration) pairs *)

(** [RobotTrajectory::Iterator] holds one iterator into each deque;
    each is carried as its distance from [begin()] of its deque. The
    operations below are those of an iterator into the trajectory they
    run on, with the trajectory unchanged since it was obtained. *)
Record Iterator : Type := mkIterator {
  waypoint_iterator_ : N;
  duration_iterator_ : N
}.

Section IteratorOps.
Context {RobotState : Type}.

Definition begin_ : M RobotState Iterator :=
  ws ← get_waypoints;
  ds ← get_durations;
  assert_ (Deque.size ws =? Deque.size ds)%N;;
  mret {| waypoint_iterator_ := 0; duration_iterator_ := 0 |}.

Definition end_ : M RobotState Iterator :=
  ws ← get_waypoints;
  ds ← get_durations;
  assert_ (Deque.size ws =? Deque.size ds)%N;;
  mret {| waypoint_iterator_ := Deque.size ws; duration_iterator_ := Deque.size ds |}.

(** [++it]: stepping a deque iterator that is already at [end()] is
    undefined. *)
Definition Iterator_incr (it : Iterator) : M RobotState Iterator :=
  ws ← get_waypoints;
  ds ← get_durations;
  if (waypoint_iterator_ it <? Deque.size ws)%N && (duration_iterator_ it <? Deque.size ds)%N
  then mret {| waypoint_iterator_ := waypoint_iterator_ it + 1;
               duration_iterator_ := duration_iterator_ it + 1 |}
  else lift Undefined.

(** [it++]: the old value is returned, the new one is kept. *)
Definition Iterator_post_incr (it : Iterator) : M RobotState (Iterator * Iterator) :=
  let retval := it in
  it' ← Iterator_incr it;
  mret (retval, it').

Definition Iterator_eq (a b : Iterator) : bool :=
  (waypoint_iterator_ a =? waypoint_iterator_ b)%N &&
  (duration_iterator_ a =? duration_iterator_ b)%N.

Definition Iterator_ne (a b : Iterator) : bool := negb (Iterator_eq a b).

(** [*it]: the pair of what the two iterators point to. *)
Definition Iterator_deref (it : Iterator) : M RobotState (RobotStatePtr * double) :=
  ws ← get_waypoints;
  ds ← get_durations;
  p ← lift (Deque.at_ ws (waypoint_iterator_ it));
  d ← lift (Deque.at_ ds (duration_iterator_ it));
  mret (p, d).

(** The range-based [for (auto [state, dt] : trajectory)] loop, as the
    language defines it on [begin()], [end()], [!=], [*] and [++]; the
    body collects the pairs. [fuel] bounds the number of iterations. *)
Fixpoint range_for_from (fuel : nat) (it e : Iterator)
    (acc : list (RobotStatePtr * double)) : M RobotState (option (list (RobotStatePtr * double))) :=
  match fuel with
  | O => mret None
  | S fuel' =>
      if Iterator_ne it e
      then x ← Iterator_deref it;
           it' ← Iterator_incr it;
           range_for_from fuel' it' e (acc ++ [x])
      else mret (Some acc)
  end.

Definition range_for (fuel : nat) : M RobotState (option (list (RobotStatePtr * double))) :=
  b ← begin_;
  e ← end_;
  range_for_from fuel b e [].
End IteratorOps.

(** * MoveItCpp: the option structs

    The structs nested in [moveit_cpp::MoveItCpp]
    (moveit_ros/planning/moveit_cpp/include/moveit/moveit_cpp/moveit_cpp.h)
    that read their fields from the parameters of a node. *)
Module MoveItCpp.

(** [rclcpp::ParameterValue]: a set parameter has one of nine types. *)
Inductive ParameterValue : Type :=
| PARAMETER_BOOL (b : bool)
| PARAMETER_INTEGER (i : Z)
| PARAMETER_DOUBLE (d : double)
| PARAMETER_STRING (s : string)
| PARAMETER_BYTE_ARRAY (l : list N)
| PARAMETER_BOOL_ARRAY (l : list bool)
| PARAMETER_INTEGER_ARRAY (l : list Z)
| PARAMETER_DOUBLE_ARRAY (l : list double)
| PARAMETER_STRING_ARRAY (l : list string).

(** An [rclcpp::Node], as far as [get_parameter] sees it: the value
    set under a parameter name, or nothing when the parameter is not
    declared or not set. *)
Definition Node : Type := string → option ParameterValue.

(** [ParameterValue::get<T>()] for the three types the structs read;
    [None] stands for the type mismatch it throws on. *)
Definition as_string (v : ParameterValue) : option string :=
  match v with PARAMETER_STRING s => Some s | _ => None end.
Definition as_double (v : ParameterValue) : option double :=
  match v with PARAMETER_DOUBLE d => Some d | _ => None end.
Definition as_string_array (v : ParameterValue) : option (list string) :=
  match v with PARAMETER_STRING_ARRAY l => Some l | _ => None end.

(** A statement on a struct [S] returns with the struct as it left it
    or throws [rclcpp::exceptions::InvalidParameterTypeException],
    again with the struct as it is at that point. *)
Inductive result (S : Type) : Type :=
| Returned (s : S)
| Threw (s : S).
Arguments Returned {S} s.
Arguments Threw {S} s.

Definition seq {S : Type} (a b : S → result S) : S → result S := λ s,
  match a s with
  | Returned s' => b s'
  | Threw s' => Threw s'
  end.
Infix ";;;" := seq (at level 61, left associativity).

(** [node->get_parameter(name, field)]: the field is assigned when the
    parameter is set and left alone when it is not. The [bool] it
    returns is dropped by every caller here. *)
Definition get_parameter {S T : Type} (node : Node) (name : string)
    (get : ParameterValue → option T) (assign : T → S → S) : S → result S := λ s,
  match node name with
  | Some v =>
      match get v with
      | Some x => Returned (assign x s)
      | None => Threw s
      end
  | None => Returned s
  end.

(** [node->get_parameter_or(name, field, alternative)]: as above, but
    the field receives [alternative] when the parameter is not set. *)
Definition get_parameter_or {S T : Type} (node : Node) (name : string)
    (get : ParameterValue → option T) (assign : T → S → S) (alternative : T) :
    S → result S := λ s,
  match node name with
  | Some v =>
      match get v with
      | Some x => Returned (assign x s)
      | None => Threw s
      end
  | None => Returned (assign alternative s)
  end.

Record PlanningSceneMonitorOptions : Type := mkPlanningSceneMonitorOptions {
  name : string;
  robot_description : string;
  joint_state_topic : string;
  attached_collision_object_topic : string;
  monitored_planning_scene_topic : string;
  publish_planning_scene_topic : string;
  wait_for_initial_state_timeout : double
}.

Definition set_name (x : string) (o : PlanningSceneMonitorOptions) :=
  mkPlanningSceneMonitorOptions x (robot_description o) (joint_state_topic o)
    (attached_collision_object_topic o) (monitored_planning_scene_topic o)
    (publish_planning_scene_topic o) (wait_for_initial_state_timeout o).
Definition set_robot_description (x : string) (o : PlanningSceneMonitorOptions) :=
  mkPlanningSceneMonitorOptions (name o) x (joint_state_topic o)
    (attached_collision_object_topic o) (monitored_planning_scene_topic o)
    (publish_planning_scene_topic o) (wait_for_initial_state_timeout o).
Definition set_joint_state_topic (x : string) (o : PlanningSceneMonitorOptions) :=
  mkPlanningSceneMonitorOptions (name o) (robot_description o) x
    (attached_collision_object_topic o) (monitored_planning_scene_topic o)
    (publish_planning_scene_topic o) (wait_for_initial_state_timeout o).
Definition set_attached_collision_object_topic (x : string) (o : PlanningSceneMonitorOptions) :=
  mkPlanningSceneMonitorOptions (name o) (robot_description o) (joint_state_topic o)
    x (monitored_planning_scene_topic o)
    (publish_planning_scene_topic o) (wait_for_initial_state_timeout o).
Definition set_monitored_planning_scene_topic (x : string) (o : PlanningSceneMonitorOptions) :=
  mkPlanningSceneMonitorOptions (name o) (robot_description o) (joint_state_topic o)
    (attached_collision_object_topic o) x
    (publish_planning_scene_topic o) (wait_for_initial_state_timeout o).
Definition set_publish_planning_scene_topic (x : string) (o : PlanningSceneMonitorOptions) :=
  mkPlanningSceneMonitorOptions (name o) (robot_description o) (joint_state_topic o)
    (attached_collision_object_topic o) (monitored_planning_scene_topic o)
    x (wait_for_initial_state_timeout o).
Definition set_wait_for_initial_state_timeout (x : double) (o : PlanningSceneMonitorOptions) :=
  mkPlanningSceneMonitorOptions (name o) (robot_description o) (joint_state_topic o)
    (attached_collision_object_topic o) (monitored_planning_scene_topic o)
    (publish_planning_scene_topic o) x.

Record PlanningPipelineOptions : Type := mkPlanningPipelineOptions {
  pipeline_names : list string;
  parent_namespace : string
}.

Definition set_pipeline_names (x : list string) (o : PlanningPipelineOptions) :=
  mkPlanningPipelineOptions x (parent_namespace o).
Definition set_parent_namespace (x : string) (o : PlanningPipelineOptions) :=
  mkPlanningPipelineOptions (pipeline_names o) x.

Record Options : Type := mkOptions {
  planning_scene_monitor_options : PlanningSceneMonitorOptions;
  planning_pipeline_options : PlanningPipelineOptions
}.

Section Load.
(** The topic names are static members of
    [planning_scene_monitor::PlanningSceneMonitor], declared in
    moveit/planning_scene_monitor/planning_scene_monitor.h, which this
    header only includes; they are taken as parameters. *)
Variable DEFAULT_JOINT_STATES_TOPIC : string.
Variable DEFAULT_ATTACHED_COLLISION_OBJECT_TOPIC : string.
Variable MONITORED_PLANNING_SCENE_TOPIC : string.
Variable DEFAULT_PLANNING_SCENE_TOPIC : string.

(** [PlanningSceneMonitorOptions::load] *)
Definition PlanningSceneMonitorOptions_load (node : Node) :
    PlanningSceneMonitorOptions → result PlanningSceneMonitorOptions :=
  let ns := "planning_scene_monitor_options" in
  get_parameter_or node (ns +:+ ".name") as_string set_name "planning_scene_monitor" ;;;
  get_parameter_or node (ns +:+ ".robot_description") as_string
    set_robot_description "robot_description" ;;;
  get_parameter_or node (ns +:+ ".joint_state_topic") as_string
    set_joint_state_topic DEFAULT_JOINT_STATES_TOPIC ;;;
  get_parameter_or node (ns +:+ ".attached_collision_object_topic") as_string
    set_attached_collision_object_topic DEFAULT_ATTACHED_COLLISION_OBJECT_TOPIC ;;;
  get_parameter_or node (ns +:+ ".monitored_planning_scene_topic") as_string
    set_monitored_planning_scene_topic MONITORED_PLANNING_SCENE_TOPIC ;;;
  get_parameter_or node (ns +:+ ".publish_planning_scene_topic") as_string
    set_publish_planning_scene_topic DEFAULT_PLANNING_SCENE_TOPIC ;;;
  get_parameter_or node (ns +:+ ".wait_for_initial_state_timeout") as_double
    set_wait_for_initial_state_timeout zero.

(** [PlanningPipelineOptions::load] *)
Definition PlanningPipelineOptions_load (node : Node) :
    PlanningPipelineOptions → result PlanningPipelineOptions :=
  let ns := "planning_pipelines." in
  get_parameter node (ns +:+ "pipeline_names") as_string_array set_pipeline_names ;;;
  get_parameter node (ns +:+ "namespace") as_string set_parent_namespace.

(** The constructor [Options(node)]. The members are default
    initialised first: strings and the vector are empty, and
    [wait_for_initial_state_timeout], a [double] without initialiser,
    holds an indeterminate value [junk]. An exception leaves no
    object. *)
Definition Options_ctor (junk : double) (node : Node) : option Options :=
  match PlanningSceneMonitorOptions_load node
          (mkPlanningSceneMonitorOptions "" "" "" "" "" "" junk) with
  | Threw _ => None
  | Returned psm =>
      match PlanningPipelineOptions_load node (mkPlanningPipelineOptions [] "") with
      | Threw _ => None
      | Returned pp => Some (mkOptions psm pp)
      end
  end.
End Load.

(** A parameter that is set has the type its field needs. *)
Definition has_type {T : Type} (get : ParameterValue → option T)
    (node : Node) (name : string) : Prop :=
  match node name with
  | Some v => is_Some (get v)
  | None => True
  end.
End MoveItCpp.

(** * Sample inputs *)

(** A trajectory holding two durations and no waypoint. *)
Definition example_durations : World nat :=
  mkWorld ∅ (mkRobotTrajectory [] [0.5; 1.5]%float).

(** The world after [addSuffixWayPoint(state, 0.5)] on a fresh
    trajectory, for robot states that are numbers, [update()] being
    the successor and [state] being 7. *)
Definition example_one_waypoint : World nat :=
  mkWorld (<[1%positive := 8]> ∅) (mkRobotTrajectory [Some 1%positive] [0.5%float]).

(** A node with two parameters set. *)
Definition example_node : MoveItCpp.Node := λ k,
  if String.eqb k "planning_scene_monitor_options.name"
  then Some (MoveItCpp.PARAMETER_STRING "psm")
  else if String.eqb k "planning_pipelines.namespace"
  then Some (MoveItCpp.PARAMETER_STRING "arm")
  else None.

(** * Verification *)

(** ** The deque operations *)

Module DequeFacts.
Section Facts.
Context {A : Type}.
Implicit Types (d : list A) (i j n : N) (x : A).

Lemma size_nil : Deque.size (@nil A) = 0%N.
Proof. reflexivity. Qed.

Lemma size_lt_length d i : (i < Deque.size d)%N ↔ N.to_nat i < length d.
Proof. unfold Deque.size. lia. Qed.

Lemma size_push_back d x : Deque.size (Deque.push_back d x) = (Deque.size d + 1)%N.
Proof. unfold Deque.size, Deque.push_back. rewrite length_app. simpl. lia. Qed.

Lemma size_push_front d x : Deque.size (Deque.push_front d x) = (Deque.size d + 1)%N.
Proof. unfold Deque.size, Deque.push_front. simpl. lia. Qed.

Lemma size_resize d n x : Deque.size (Deque.resize_ d n x) = n.
Proof. unfold Deque.size, Deque.resize_. rewrite length_resize. lia. Qed.

Lemma size_clear d : Deque.size (Deque.clear d) = 0%N.
Proof. reflexivity. Qed.

Lemma insert_Ok d i x d' :
  Deque.insert_ d i x = Ok d' →
  (i ≤ Deque.size d)%N ∧ Deque.size d' = (Deque.size d + 1)%N.
Proof.
  unfold Deque.insert_. destruct (N.leb_spec i (Deque.size d)) as [Hle|Hgt]; [|done].
  intros [= <-]. split; [done|].
  unfold Deque.size in *.
  rewrite length_app, length_take. simpl. rewrite length_drop. lia.
Qed.

Lemma assign_Ok d i x d' :
  Deque.assign d i x = Ok d' →
  (i < Deque.size d)%N ∧ d' = <[N.to_nat i := x]> d.
Proof.
  unfold Deque.assign. destruct (N.ltb_spec i (Deque.size d)); [|done].
  by intros [= <-].
Qed.

Lemma assign_in_range d i x :
  (i < Deque.size d)%N → Deque.assign d i x = Ok (<[N.to_nat i := x]> d).
Proof.
  intros Hlt. unfold Deque.assign.
  by destruct (N.ltb_spec i (Deque.size d)); [|lia].
Qed.

Lemma at_in_range d i :
  (i < Deque.size d)%N → ∃ x, d !! N.to_nat i = Some x ∧ Deque.at_ d i = Ok x.
Proof.
  intros Hlt. unfold Deque.at_.
  destruct (N.ltb_spec i (Deque.size d)); [|lia].
  destruct (lookup_lt_is_Some_2 d (N.to_nat i)) as [x Hx].
  { by apply size_lt_length. }
  exists x. by rewrite Hx.
Qed.
End Facts.
End DequeFacts.

(** [index + 1] is exact below [SIZE_MAX] and wraps to zero at it. *)
Lemma SizeT_add_1_small (index : N) :
  (index < SizeT.SIZE_MAX)%N → SizeT.add index 1 = (index + 1)%N.
Proof.
  unfold SizeT.add, SizeT.SIZE_MAX. intros Hlt.
  apply N.mod_small. lia.
Qed.

Lemma SizeT_add_1_wraps : SizeT.add SizeT.SIZE_MAX 1 = 0%N.
Proof. reflexivity. Qed.

(** ** Running a member function *)

(** Unfold the monad so that a call becomes a [match] on the outcomes
    of its steps. *)
Ltac unfold_M :=
  unfold mbind, M_bind, mret, M_ret, lift, assert_,
    get_waypoints, get_durations, set_waypoints, set_durations in *;
  cbn [heap self waypoints_ duration_from_previous_ fst snd] in *.

Section Durations.
Context {RobotState : Type}.
Implicit Types (w : World RobotState) (index j : N) (value : double).

(** The getter, computed: it returns and leaves the world alone. *)
Lemma getWayPointDurationFromPrevious_in_range w index :
  (index < Deque.size (duration_from_previous_ (self w)))%N →
  ∃ v, duration_from_previous_ (self w) !! N.to_nat index = Some v ∧
       getWayPointDurationFromPrevious index w = Ok (v, w).
Proof.
  intros Hlt. unfold getWayPointDurationFromPrevious. unfold_M.
  destruct (N.ltb_spec index (Deque.size (duration_from_previous_ (self w)))); [|lia].
  destruct (DequeFacts.at_in_range _ _ Hlt) as (v & Hv & ->).
  by exists v.
Qed.

Lemma getWayPointDurationFromPrevious_out_of_range w index :
  (Deque.size (duration_from_previous_ (self w)) ≤ index)%N →
  getWayPointDurationFromPrevious index w = Ok (zero, w).
Proof.
  intros Hle. unfold getWayPointDurationFromPrevious. unfold_M.
  by destruct (N.ltb_spec index (Deque.size (duration_from_previous_ (self w)))); [lia|].
Qed.

(** The setter, computed, on its two paths. *)
Lemma setWayPointDurationFromPrevious_in_range w index value :
  (index < Deque.size (duration_from_previous_ (self w)))%N →
  setWayPointDurationFromPrevious index value w =
    Ok ((), {| heap := heap w;
               self := {| waypoints_ := waypoints_ (self w);
                          duration_from_previous_ :=
                            <[N.to_nat index := value]> (duration_from_previous_ (self w)) |} |}).
Proof.
  intros Hlt. unfold setWayPointDurationFromPrevious. unfold_M.
  destruct (N.leb_spec (Deque.size (duration_from_previous_ (self w))) index); [lia|].
  unfold_M. by rewrite DequeFacts.assign_in_range.
Qed.

Lemma setWayPointDurationFromPrevious_grow w index value :
  (Deque.size (duration_from_previous_ (self w)) ≤ index)%N →
  (index < SizeT.SIZE_MAX)%N →
  setWayPointDurationFromPrevious index value w =
    Ok ((), {| heap := heap w;
               self := {| waypoints_ := waypoints_ (self w);
                          duration_from_previous_ :=
                            <[N.to_nat index := value]>
                              (resize (N.to_nat (index + 1)) zero
                                 (duration_from_previous_ (self w))) |} |}).
Proof.
  intros Hle Hmax. unfold setWayPointDurationFromPrevious. unfold_M.
  destruct (N.leb_spec (Deque.size (duration_from_previous_ (self w))) index); [|lia].
  unfold_M. rewrite SizeT_add_1_small by done.
  rewrite DequeFacts.assign_in_range; [done|].
  rewrite DequeFacts.size_resize. lia.
Qed.

(** At [SIZE_MAX] the new size wraps to zero: the deque is emptied and
    the assignment that follows falls outside it. *)
Lemma setWayPointDurationFromPrevious_SIZE_MAX w value :
  (Deque.size (duration_from_previous_ (self w)) ≤ SizeT.SIZE_MAX)%N →
  setWayPointDurationFromPrevious SizeT.SIZE_MAX value w = Undefined.
Proof.
  intros Hle. unfold setWayPointDurationFromPrevious. unfold_M.
  destruct (N.leb_spec (Deque.size (duration_from_previous_ (self w))) SizeT.SIZE_MAX); [|lia].
  unfold_M. rewrite SizeT_add_1_wraps.
  unfold Deque.assign. rewrite DequeFacts.size_resize.
  by destruct (N.ltb_spec SizeT.SIZE_MAX 0); [lia|].
Qed.

(** A setter call that returned either wrote inside the deque, or
    resized it to [index + 1] with no wrap-around and wrote the last
    position. *)
Lemma setWayPointDurationFromPrevious_Ok_cases w index value w' :
  setWayPointDurationFromPrevious index value w = Ok ((), w') →
  ((index < Deque.size (duration_from_previous_ (self w)))%N ∧
   w' = {| heap := heap w;
           self := {| waypoints_ := waypoints_ (self w);
                      duration_from_previous_ :=
                        <[N.to_nat index := value]> (duration_from_previous_ (self w)) |} |}) ∨
  ((Deque.size (duration_from_previous_ (self w)) ≤ index)%N ∧
   w' = {| heap := heap w;
           self := {| waypoints_ := waypoints_ (self w);
                      duration_from_previous_ :=
                        <[N.to_nat index := value]>
                          (resize (N.to_nat (index + 1)) zero
                             (duration_from_previous_ (self w))) |} |}).
Proof.
  destruct (N.lt_ge_cases index (Deque.size (duration_from_previous_ (self w))))
    as [Hlt|Hge].
  - rewrite setWayPointDurationFromPrevious_in_range by done.
    intros [= <-]. by left.
  - unfold setWayPointDurationFromPrevious. unfold_M.
    destruct (N.leb_spec (Deque.size (duration_from_previous_ (self w))) index); [|lia].
    unfold_M. unfold Deque.assign. rewrite DequeFacts.size_resize.
    destruct (N.ltb_spec index (SizeT.add index 1)) as [Hlt|Hwrap]; [|done].
    assert (Hadd : SizeT.add index 1 = (index + 1)%N).
    { unfold SizeT.add in *.
      pose proof (N.Div0.mod_le (index + 1) SizeT.modulus). lia. }
    rewrite Hadd. intros [= <-]. by right.
Qed.
End Durations.

(** ** The member functions on small trajectories *)

Example getWayPointDurationFromPrevious_stored :
  getWayPointDurationFromPrevious 1
    (mkWorld (∅ : gmap loc unit) (mkRobotTrajectory [Some 1%positive; Some 2%positive] [0.5; 1.5]%float))
  = Ok (1.5%float,
        mkWorld ∅ (mkRobotTrajectory [Some 1%positive; Some 2%positive] [0.5; 1.5]%float)).
Proof. reflexivity. Qed.

Example getWayPointDurationFromPrevious_past_the_end :
  getWayPointDurationFromPrevious 2
    (mkWorld (∅ : gmap loc unit) (mkRobotTrajectory [] [0.5; 1.5]%float))
  = Ok (zero, mkWorld ∅ (mkRobotTrajectory [] [0.5; 1.5]%float)).
Proof. reflexivity. Qed.

Example setWayPointDurationFromPrevious_overwrites :
  setWayPointDurationFromPrevious 0 2%float
    (mkWorld (∅ : gmap loc unit) (mkRobotTrajectory [] [0.5; 1.5]%float))
  = Ok ((), mkWorld ∅ (mkRobotTrajectory [] [2; 1.5]%float)).
Proof. reflexivity. Qed.

Example setWayPointDurationFromPrevious_pads :
  setWayPointDurationFromPrevious 3 2%float
    (mkWorld (∅ : gmap loc unit) (mkRobotTrajectory [] [0.5%float]))
  = Ok ((), mkWorld ∅ (mkRobotTrajectory [] [0.5; 0; 0; 2]%float)).
Proof. reflexivity. Qed.

Example addSuffixWayPoint_then_insertWayPoint :
  (addSuffixWayPoint id () 0.5%float;; insertWayPoint id 0 () 1.5%float;; size)
    (initial (∅ : gmap loc unit))
  = Ok (2%N,
        mkWorld (<[2%positive := ()]> (<[1%positive := ()]> ∅))
                (mkRobotTrajectory [Some 2%positive; Some 1%positive] [1.5; 0.5]%float)).
Proof. vm_compute. reflexivity. Qed.

Example addSuffixWayPoint_ptr_null :
  addSuffixWayPoint_ptr id None 0.5%float (initial (∅ : gmap loc unit)) = Undefined.
Proof. reflexivity. Qed.

Example insertWayPoint_past_the_end :
  insertWayPoint id 1 () 0.5%float (initial (∅ : gmap loc unit)) = Undefined.
Proof. reflexivity. Qed.

(** ** Reading and writing one duration *)

Section DurationClaims.
Context {RobotState : Type}.
Implicit Types (w : World RobotState) (index j : N) (value : double).

(** C3: for every trajectory and every index,
    [getWayPointDurationFromPrevious(index)] returns the stored
    duration at that index when the index is strictly below the length
    of the duration deque and [0.0] otherwise; the call always returns
    (no assertion, no undefined access) and the trajectory, like the
    rest of the world, is the same afterwards. *)
Theorem getWayPointDurationFromPrevious_spec w index :
  ∃ v : double,
    getWayPointDurationFromPrevious index w = Ok (v, w) ∧
    ((index < Deque.size (duration_from_previous_ (self w)))%N →
       duration_from_previous_ (self w) !! N.to_nat index = Some v) ∧
    ((Deque.size (duration_from_previous_ (self w)) ≤ index)%N → v = zero).
Proof.
  destruct (N.lt_ge_cases index (Deque.size (duration_from_previous_ (self w))))
    as [Hlt|Hge].
  - destruct (getWayPointDurationFromPrevious_in_range w index Hlt) as (v & Hv & Hrun).
    exists v. split_and!; [done|done|lia].
  - exists zero. rewrite getWayPointDurationFromPrevious_out_of_range by done.
    split_and!; [done|lia|done].
Qed.

(** C2, amended: for every trajectory and every index, whenever
    [setWayPointDurationFromPrevious(index, value)] returns, it leaves
    [value] at position [index], a duration deque of length at least
    [index + 1] whose positions from the old length up to [index - 1]
    hold [0.0], and every other entry that existed before unchanged.
    (The call returns for every index below the current length; past
    it the resize has to succeed, which it cannot where [index + 1]
    wraps around or exceeds what the deque can hold.) *)
Theorem setWayPointDurationFromPrevious_spec w index value w' :
  setWayPointDurationFromPrevious index value w = Ok ((), w') →
  durations_after_set (duration_from_previous_ (self w)) index value
                      (duration_from_previous_ (self w')).
Proof.
  intros Hrun.
  set (ds := duration_from_previous_ (self w)).
  apply setWayPointDurationFromPrevious_Ok_cases in Hrun as [[Hlt ->]|[Hge ->]];
    cbn [self duration_from_previous_]; fold ds in Hlt || fold ds in Hge; fold ds;
    unfold durations_after_set, Deque.size in *.
  - split_and!.
    + apply list_lookup_insert_eq. lia.
    + rewrite length_insert. lia.
    + intros j Hj1 Hj2. lia.
    + intros j Hne _. apply list_lookup_insert_ne. lia.
  - split_and!.
    + apply list_lookup_insert_eq. rewrite length_resize. lia.
    + rewrite length_insert, length_resize. lia.
    + intros j Hj1 Hj2. rewrite list_lookup_insert_ne by lia.
      apply lookup_resize_new; lia.
    + intros j Hne Hj. rewrite list_lookup_insert_ne by lia.
      apply lookup_resize; lia.
Qed.

(** Beyond the claim: the setter touches neither the waypoints nor the
    robot states, and the new length is exactly the larger of the old
    length and [index + 1]. *)
Lemma setWayPointDurationFromPrevious_frame w index value w' :
  (index < SizeT.SIZE_MAX)%N →
  setWayPointDurationFromPrevious index value w = Ok ((), w') →
  heap w' = heap w ∧ waypoints_ (self w') = waypoints_ (self w) ∧
  Deque.size (duration_from_previous_ (self w')) =
    (Deque.size (duration_from_previous_ (self w)) `max` (index + 1))%N.
Proof.
  intros Hmax.
  destruct (N.lt_ge_cases index (Deque.size (duration_from_previous_ (self w))))
    as [Hlt|Hge].
  - rewrite setWayPointDurationFromPrevious_in_range by done.
    intros [= <-]. cbn. split_and!; [done|done|].
    unfold Deque.size in *. rewrite length_insert. lia.
  - rewrite setWayPointDurationFromPrevious_grow by done.
    intros [= <-]. cbn. split_and!; [done|done|].
    unfold Deque.size in *. rewrite length_insert, length_resize. lia.
Qed.
End DurationClaims.

(** The amended C2 at work: one duration stored, index 3 written. *)
Lemma setWayPointDurationFromPrevious_spec_witness :
  let w := mkWorld (∅ : gmap loc unit) (mkRobotTrajectory [] [0.5%float]) in
  let w' := mkWorld (∅ : gmap loc unit) (mkRobotTrajectory [] [0.5; 0; 0; 2]%float) in
  setWayPointDurationFromPrevious 3 2%float w = Ok ((), w') ∧
  durations_after_set (duration_from_previous_ (self w)) 3 2%float
                      (duration_from_previous_ (self w')).
Proof.
  intros w w'. split.
  - reflexivity.
  - apply (setWayPointDurationFromPrevious_spec w 3 2%float w'). reflexivity.
Defined.

(** C2 as stated fails at [index = SIZE_MAX]: on a fresh trajectory
    [index + 1] wraps to 0, [resize(0, 0.0)] leaves the deque empty and
    the write to position [SIZE_MAX] is outside it, so the call has no
    defined result at all. *)
Lemma setWayPointDurationFromPrevious_SIZE_MAX_counterexample :
  ¬ setWayPointDurationFromPrevious_post
      (initial (∅ : gmap loc unit)) SizeT.SIZE_MAX 1%float.
Proof.
  intros (w' & Hrun & _).
  rewrite setWayPointDurationFromPrevious_SIZE_MAX in Hrun; [done|].
  cbn. done.
Qed.

(** ** The two deques under the public calls *)

Section Sizes.
Context {RobotState : Type}.
Variable update : RobotState → RobotState.
Implicit Types (w : World RobotState) (c : call RobotState)
  (state : RobotStatePtr) (dt : double) (index : N).

Local Abbreviation ws w := (waypoints_ (self w)).
Local Abbreviation ds w := (duration_from_previous_ (self w)).

Lemma deref_update_Ok state w w' :
  deref_update update state w = Ok ((), w') → self w' = self w.
Proof.
  unfold deref_update. destruct state as [l|]; [|done].
  destruct (heap w !! l); [|done]. by intros [= <-].
Qed.

Lemma make_shared_Ok (s : RobotState) w p w' :
  make_shared s w = Ok (p, w') → self w' = self w ∧ is_Some p.
Proof. unfold make_shared. intros [= <- <-]. eauto. Qed.

Lemma addSuffixWayPoint_ptr_Ok state dt w w' :
  addSuffixWayPoint_ptr update state dt w = Ok ((), w') →
  ws w' = Deque.push_back (ws w) state ∧ ds w' = Deque.push_back (ds w) dt.
Proof.
  unfold addSuffixWayPoint_ptr. unfold_M.
  destruct (deref_update update state w) as [[[] w1]| |] eqn:Hup; [|done..].
  apply deref_update_Ok in Hup as ->. by intros [= <-].
Qed.

Lemma addPrefixWayPoint_ptr_Ok state dt w w' :
  addPrefixWayPoint_ptr update state dt w = Ok ((), w') →
  ws w' = Deque.push_front (ws w) state ∧ ds w' = Deque.push_front (ds w) dt.
Proof.
  unfold addPrefixWayPoint_ptr. unfold_M.
  destruct (deref_update update state w) as [[[] w1]| |] eqn:Hup; [|done..].
  apply deref_update_Ok in Hup as ->. by intros [= <-].
Qed.

Lemma insertWayPoint_ptr_Ok index state dt w w' :
  insertWayPoint_ptr update index state dt w = Ok ((), w') →
  Deque.insert_ (ws w) index state = Ok (ws w') ∧
  Deque.insert_ (ds w) index dt = Ok (ds w').
Proof.
  unfold insertWayPoint_ptr. unfold_M.
  destruct (deref_update update state w) as [[[] w1]| |] eqn:Hup; [|done..].
  apply deref_update_Ok in Hup as Hself. rewrite Hself.
  destruct (Deque.insert_ (ws w) index state) as [xs| |]; [|discriminate..].
  rewrite Hself.
  destruct (Deque.insert_ (ds w) index dt) as [ys| |]; [|discriminate..].
  by intros [= <-].
Qed.

Lemma clear_Ok w : ∃ w', clear w = Ok ((), w') ∧ ws w' = [] ∧ ds w' = [].
Proof. eexists. unfold clear. unfold_M. done. Qed.

(** A setter call that returns either wrote inside the deque or grew
    it to exactly [index + 1]; the waypoints are never touched. *)
Lemma setWayPointDurationFromPrevious_Ok index value w w' :
  (index ≤ SizeT.SIZE_MAX)%N →
  setWayPointDurationFromPrevious index value w = Ok ((), w') →
  ws w' = ws w ∧
  ((index < Deque.size (ds w))%N ∧ Deque.size (ds w') = Deque.size (ds w) ∨
   (Deque.size (ds w) ≤ index)%N ∧ Deque.size (ds w') = (index + 1)%N).
Proof.
  intros Hty Hrun.
  destruct (N.lt_ge_cases index (Deque.size (ds w))) as [Hlt|Hge].
  - rewrite setWayPointDurationFromPrevious_in_range in Hrun by done.
    injection Hrun as <-. cbn. split; [done|left; split; [done|]].
    unfold Deque.size. by rewrite length_insert.
  - destruct (decide (index = SizeT.SIZE_MAX)) as [->|Hne].
    { by rewrite setWayPointDurationFromPrevious_SIZE_MAX in Hrun. }
    rewrite setWayPointDurationFromPrevious_grow in Hrun by (done || lia).
    injection Hrun as <-. cbn. split; [done|right; split; [done|]].
    unfold Deque.size. rewrite length_insert, length_resize. lia.
Qed.

(** How one returning call moves the two lengths. *)
Lemma run_sizes c w w' :
  well_typed c → run update c w = Ok ((), w') →
  match c with
  | Clear => Deque.size (ws w') = 0%N ∧ Deque.size (ds w') = 0%N
  | SetWayPointDurationFromPrevious index _ =>
      Deque.size (ws w') = Deque.size (ws w) ∧
      ((index < Deque.size (ds w))%N ∧ Deque.size (ds w') = Deque.size (ds w) ∨
       (Deque.size (ds w) ≤ index)%N ∧ Deque.size (ds w') = (index + 1)%N)
  | _ =>
      Deque.size (ws w') = (Deque.size (ws w) + 1)%N ∧
      Deque.size (ds w') = (Deque.size (ds w) + 1)%N
  end.
Proof.
  intros Hty Hrun. destruct c as [s dt|p dt|s dt|p dt|i s dt|i p dt|i v|]; cbn in Hrun.
  - unfold addSuffixWayPoint in Hrun. unfold_M.
    destruct (make_shared s w) as [[p w1]| |] eqn:Hmk; [|done..].
    apply make_shared_Ok in Hmk as [Hself _].
    apply addSuffixWayPoint_ptr_Ok in Hrun as [-> ->].
    rewrite Hself. by rewrite !DequeFacts.size_push_back.
  - apply addSuffixWayPoint_ptr_Ok in Hrun as [-> ->].
    by rewrite !DequeFacts.size_push_back.
  - unfold addPrefixWayPoint in Hrun. unfold_M.
    destruct (make_shared s w) as [[p w1]| |] eqn:Hmk; [|done..].
    apply make_shared_Ok in Hmk as [Hself _].
    apply addPrefixWayPoint_ptr_Ok in Hrun as [-> ->].
    rewrite Hself. by rewrite !DequeFacts.size_push_front.
  - apply addPrefixWayPoint_ptr_Ok in Hrun as [-> ->].
    by rewrite !DequeFacts.size_push_front.
  - unfold insertWayPoint in Hrun. unfold_M.
    destruct (make_shared s w) as [[p w1]| |] eqn:Hmk; [|done..].
    apply make_shared_Ok in Hmk as [Hself _].
    apply insertWayPoint_ptr_Ok in Hrun as [Hw Hd].
    apply DequeFacts.insert_Ok in Hw as [_ ->], Hd as [_ ->].
    by rewrite Hself.
  - apply insertWayPoint_ptr_Ok in Hrun as [Hw Hd].
    by apply DequeFacts.insert_Ok in Hw as [_ ->], Hd as [_ ->].
  - apply setWayPointDurationFromPrevious_Ok in Hrun as [-> Hd]; done.
  - destruct (clear_Ok w) as (w'' & Hrun' & Hw & Hd).
    rewrite Hrun in Hrun'. injection Hrun' as <-. by rewrite Hw, Hd.
Qed.

(** Every call that does not take the setter's resizing path keeps the
    two deques equally long. *)
Lemma run_preserves_size_invariant c w w' :
  well_typed c → run update c w = Ok ((), w') →
  ¬ grows_durations w c →
  size_invariant (self w) → size_invariant (self w').
Proof.
  unfold size_invariant. intros Hty Hrun Hgrow Hinv.
  pose proof (run_sizes c w w' Hty Hrun) as Hsz.
  destruct c; cbn in Hgrow; try lia.
Qed.

(** The resizing path always breaks the balance. *)
Lemma run_grows_breaks_size_invariant c w w' :
  well_typed c → run update c w = Ok ((), w') →
  grows_durations w c →
  size_invariant (self w) → ¬ size_invariant (self w').
Proof.
  unfold size_invariant. intros Hty Hrun Hgrow Hinv.
  pose proof (run_sizes c w w' Hty Hrun) as Hsz.
  destruct c; cbn in Hgrow; try done. lia.
Qed.

(** What does hold in every reachable world: a waypoint always has a
    duration entry. *)
Lemma reachable_waypoints_le_durations w :
  reachable update w → (Deque.size (ws w) ≤ Deque.size (ds w))%N.
Proof.
  induction 1 as [h|w c w' _ IH Hty Hrun]; [done|].
  pose proof (run_sizes c w w' Hty Hrun) as Hsz.
  destruct c; lia.
Qed.
End Sizes.

(** ** The size invariant *)

(** As long as the setter is only used on existing positions, the two
    deques stay equally long and [size()] returns their length. *)
Lemma reachable_in_range_size_invariant {RobotState : Type}
    (update : RobotState → RobotState) (w : World RobotState) :
  reachable_in_range update w → size_invariant (self w).
Proof.
  induction 1 as [h|w c w' _ IH Hty Hgrow Hrun]; [done|].
  by eapply run_preserves_size_invariant.
Qed.

Lemma size_Ok {RobotState : Type} (w : World RobotState) :
  size_invariant (self w) →
  size w = Ok (Deque.size (waypoints_ (self w)), w).
Proof.
  unfold size_invariant, size. intros Hinv. unfold_M.
  rewrite Hinv. by rewrite N.eqb_refl.
Qed.

Lemma size_AssertFail {RobotState : Type} (w : World RobotState) :
  ¬ size_invariant (self w) → size w = AssertFail.
Proof.
  unfold size_invariant, size. intros Hinv. unfold_M.
  by destruct (N.eqb_spec (Deque.size (waypoints_ (self w)))
                          (Deque.size (duration_from_previous_ (self w)))).
Qed.

(** C1, evaluated where it fails: on a freshly constructed trajectory
    (both deques empty, the size invariant holds) the public call
    [setWayPointDurationFromPrevious(0, 1.0)] returns with no waypoint
    and one duration. That world is reachable by the public
    operations, the number of waypoints differs from the number of
    durations, and the assertion in [size()] fails there. *)
Theorem setWayPointDurationFromPrevious_breaks_size_invariant :
  let w0 := initial (∅ : gmap loc unit) in
  let w1 := mkWorld (∅ : gmap loc unit) (mkRobotTrajectory [] [1%float]) in
  size_invariant (self w0) ∧
  run id (SetWayPointDurationFromPrevious 0 1%float) w0 = Ok ((), w1) ∧
  reachable id w1 ∧
  ¬ size_invariant (self w1) ∧
  getWayPointCount w1 = Ok (0%N, w1) ∧
  size w1 = AssertFail.
Proof.
  intros w0 w1.
  assert (Hrun : run id (SetWayPointDurationFromPrevious 0 1%float) w0 = Ok ((), w1))
    by reflexivity.
  split_and!; try done.
  eapply reachable_call; [apply reachable_initial| |exact Hrun].
  cbn. done.
Qed.

(** * Further properties of the member functions *)

(** ** Durations: what the getter sees of the setter *)

Section DurationRoundTrip.
Context {RobotState : Type}.
Implicit Types (w : World RobotState) (index j : N) (value : double).

Local Abbreviation ds w := (duration_from_previous_ (self w)).

(** The getter reads the entry if there is one and [0.0] if not. *)
Lemma getWayPointDurationFromPrevious_lookup w index :
  getWayPointDurationFromPrevious index w =
    Ok (default zero (ds w !! N.to_nat index), w).
Proof.
  destruct (N.lt_ge_cases index (Deque.size (ds w))) as [Hlt|Hge].
  - destruct (getWayPointDurationFromPrevious_in_range w index Hlt) as (v & Hv & ->).
    by rewrite Hv.
  - rewrite getWayPointDurationFromPrevious_out_of_range by done.
    rewrite lookup_ge_None_2; [done|]. unfold Deque.size in Hge. lia.
Qed.

(** The setter on its resizing path, whatever the index: it returns
    exactly when [index + 1] did not wrap. *)
Lemma setWayPointDurationFromPrevious_grow_gen w index value :
  (Deque.size (ds w) ≤ index)%N →
  setWayPointDurationFromPrevious index value w =
    if (index <? SizeT.add index 1)%N
    then Ok ((), {| heap := heap w;
                    self := {| waypoints_ := waypoints_ (self w);
                               duration_from_previous_ :=
                                 <[N.to_nat index := value]>
                                   (resize (N.to_nat (SizeT.add index 1)) zero (ds w)) |} |})
    else Undefined.
Proof.
  intros Hle. unfold setWayPointDurationFromPrevious. unfold_M.
  destruct (N.leb_spec (Deque.size (ds w)) index); [|lia].
  unfold_M. unfold Deque.assign. rewrite DequeFacts.size_resize.
  by destruct (index <? SizeT.add index 1)%N.
Qed.

(** Every entry of the durations after a returning setter call. *)
Lemma setWayPointDurationFromPrevious_lookup w index value w' (k : nat) :
  (index < SizeT.SIZE_MAX)%N →
  setWayPointDurationFromPrevious index value w = Ok ((), w') →
  ds w' !! k =
    if decide (k = N.to_nat index) then Some value
    else if decide (k < length (ds w)) then ds w !! k
    else if decide (k < N.to_nat index) then Some zero
    else None.
Proof.
  intros Hmax.
  destruct (N.lt_ge_cases index (Deque.size (ds w))) as [Hlt|Hge];
    unfold Deque.size in *.
  - rewrite setWayPointDurationFromPrevious_in_range by (unfold Deque.size; lia).
    intros [= <-]. cbn.
    repeat case_decide; subst.
    + apply list_lookup_insert_eq. lia.
    + by rewrite list_lookup_insert_ne.
    + lia.
    + rewrite list_lookup_insert_ne by done. apply lookup_ge_None_2. lia.
  - rewrite setWayPointDurationFromPrevious_grow by (unfold Deque.size; lia).
    intros [= <-]. cbn.
    repeat case_decide; subst.
    + apply list_lookup_insert_eq. rewrite length_resize. lia.
    + rewrite list_lookup_insert_ne by done. apply lookup_resize; lia.
    + rewrite list_lookup_insert_ne by done. apply lookup_resize_new; lia.
    + apply lookup_ge_None_2. rewrite length_insert, length_resize. lia.
Qed.

(** Every entry of the durations after a returning setter call,
    whatever the index. *)
Lemma setWayPointDurationFromPrevious_lookup_Ok w index value w' (k : nat) :
  setWayPointDurationFromPrevious index value w = Ok ((), w') →
  ds w' !! k =
    if decide (k = N.to_nat index) then Some value
    else if decide (k < length (ds w)) then ds w !! k
    else if decide (k < N.to_nat index) then Some zero
    else None.
Proof.
  intros Hrun.
  apply setWayPointDurationFromPrevious_Ok_cases in Hrun as [[Hlt ->]|[Hge ->]];
    unfold Deque.size in *; cbn; repeat case_decide; subst.
  - apply list_lookup_insert_eq. lia.
  - by rewrite list_lookup_insert_ne.
  - lia.
  - rewrite list_lookup_insert_ne by done. apply lookup_ge_None_2. lia.
  - apply list_lookup_insert_eq. rewrite length_resize. lia.
  - rewrite list_lookup_insert_ne by done. apply lookup_resize; lia.
  - rewrite list_lookup_insert_ne by done. apply lookup_resize_new; lia.
  - apply lookup_ge_None_2. rewrite length_insert, length_resize. lia.
Qed.

(** A setter call returns on a trajectory exactly when its index is
    inside the duration deque or [index + 1] does not wrap around (the
    resize being taken to succeed); the waypoints and the store play
    no part. *)
Lemma setWayPointDurationFromPrevious_Ok_iff w index value :
  (∃ w', setWayPointDurationFromPrevious index value w = Ok ((), w')) ↔
  (index < Deque.size (ds w))%N ∨ SizeT.add index 1 = (index + 1)%N.
Proof.
  split.
  - intros [w' Hrun].
    destruct (N.lt_ge_cases index (Deque.size (ds w))) as [Hlt|Hge]; [by left|right].
    rewrite setWayPointDurationFromPrevious_grow_gen in Hrun by done.
    destruct (N.ltb_spec index (SizeT.add index 1)) as [Hlt|Hwrap]; [|done].
    unfold SizeT.add in *.
    pose proof (N.Div0.mod_le (index + 1) SizeT.modulus). lia.
  - intros Hok.
    destruct (N.lt_ge_cases index (Deque.size (ds w))) as [Hlt|Hge].
    + rewrite setWayPointDurationFromPrevious_in_range by done. eauto.
    + destruct Hok as [Hlt|Hadd]; [lia|].
      rewrite setWayPointDurationFromPrevious_grow_gen by done.
      rewrite Hadd. destruct (N.ltb_spec index (index + 1)); [eauto|lia].
Qed.

(** A returning setter call leaves the store and the waypoints alone
    and makes the duration deque as long as the larger of its old
    length and [index + 1]. *)
Lemma setWayPointDurationFromPrevious_Ok_length w index value w' :
  setWayPointDurationFromPrevious index value w = Ok ((), w') →
  heap w' = heap w ∧ waypoints_ (self w') = waypoints_ (self w) ∧
  length (ds w') = length (ds w) `max` S (N.to_nat index).
Proof.
  intros Hrun.
  apply setWayPointDurationFromPrevious_Ok_cases in Hrun as [[Hlt ->]|[Hge ->]];
    cbn; (split_and!; [done|done|]); unfold Deque.size in *.
  - rewrite length_insert. lia.
  - rewrite length_insert, length_resize. lia.
Qed.

(** X1: whenever [setWayPointDurationFromPrevious(index, value)]
    returns, [getWayPointDurationFromPrevious(index)] called right
    after returns [value], whether the index existed before or not. *)
Theorem set_then_get_duration w index value w' :
  setWayPointDurationFromPrevious index value w = Ok ((), w') →
  getWayPointDurationFromPrevious index w' = Ok (value, w').
Proof.
  intros Hrun.
  rewrite getWayPointDurationFromPrevious_lookup.
  rewrite (setWayPointDurationFromPrevious_lookup_Ok w index value w' _ Hrun).
  by rewrite decide_True.
Qed.

(** X2: a returning [setWayPointDurationFromPrevious(index, value)]
    changes what [getWayPointDurationFromPrevious] returns at no other
    index: entries that existed are kept, entries created by the
    resize read [0.0] as they did while they were past the end. *)
Theorem set_keeps_other_durations w index value w' j :
  (index < SizeT.SIZE_MAX)%N →
  setWayPointDurationFromPrevious index value w = Ok ((), w') →
  j ≠ index →
  ∃ v, getWayPointDurationFromPrevious j w = Ok (v, w) ∧
       getWayPointDurationFromPrevious j w' = Ok (v, w').
Proof.
  intros Hmax Hrun Hne.
  rewrite !getWayPointDurationFromPrevious_lookup.
  rewrite (setWayPointDurationFromPrevious_lookup w index value w' _ Hmax Hrun).
  eexists. split; [done|]. f_equal. f_equal.
  repeat case_decide; try done.
  - lia.
  - by rewrite lookup_ge_None_2 by lia.
  - by rewrite lookup_ge_None_2 by lia.
Qed.

(** X3: writing the same index twice is the same as doing the second
    write alone, for every index and every trajectory (also where the
    call is undefined). *)
Theorem set_duration_twice w index value1 value2 :
  (setWayPointDurationFromPrevious index value1;;
   setWayPointDurationFromPrevious index value2) w =
  setWayPointDurationFromPrevious index value2 w.
Proof.
  unfold mbind at 1, M_bind at 1.
  destruct (N.lt_ge_cases index (Deque.size (ds w))) as [Hlt|Hge].
  - rewrite !(setWayPointDurationFromPrevious_in_range w) by done.
    rewrite setWayPointDurationFromPrevious_in_range.
    + cbn. by rewrite list_insert_insert_eq.
    + cbn. unfold Deque.size in *. rewrite length_insert. lia.
  - rewrite !(setWayPointDurationFromPrevious_grow_gen w) by done.
    destruct (N.ltb_spec index (SizeT.add index 1)) as [Hlt|Hwrap]; [|done].
    rewrite setWayPointDurationFromPrevious_in_range.
    + cbn. by rewrite list_insert_insert_eq.
    + cbn. unfold Deque.size. rewrite length_insert, length_resize. lia.
Qed.

(** X4: writes to two different indices commute: if each of the two
    calls returns on the trajectory, then both orders of the two calls
    return and leave the same trajectory. *)
Theorem set_duration_commute w i j u v wi wj :
  setWayPointDurationFromPrevious i u w = Ok ((), wi) →
  setWayPointDurationFromPrevious j v w = Ok ((), wj) →
  i ≠ j →
  ∃ w', (setWayPointDurationFromPrevious i u;;
         setWayPointDurationFromPrevious j v) w = Ok ((), w') ∧
        (setWayPointDurationFromPrevious j v;;
         setWayPointDurationFromPrevious i u) w = Ok ((), w').
Proof.
  intros Hwi Hwj Hne. unfold mbind, M_bind. rewrite Hwi, Hwj.
  destruct (setWayPointDurationFromPrevious_Ok_length w i u wi Hwi) as (Hh1 & Hw1 & Hl1).
  destruct (setWayPointDurationFromPrevious_Ok_length w j v wj Hwj) as (Hh2 & Hw2 & Hl2).
  assert (∃ wij, setWayPointDurationFromPrevious j v wi = Ok ((), wij)) as [wij Hwij].
  { apply setWayPointDurationFromPrevious_Ok_iff.
    destruct (proj1 (setWayPointDurationFromPrevious_Ok_iff w j v)) as [Hj|Hj];
      [eauto|left|by right].
    unfold Deque.size in *. lia. }
  assert (∃ wji, setWayPointDurationFromPrevious i u wj = Ok ((), wji)) as [wji Hwji].
  { apply setWayPointDurationFromPrevious_Ok_iff.
    destruct (proj1 (setWayPointDurationFromPrevious_Ok_iff w i u)) as [Hi|Hi];
      [eauto|left|by right].
    unfold Deque.size in *. lia. }
  rewrite Hwij, Hwji. exists wij. split; [done|]. do 2 f_equal.
  destruct (setWayPointDurationFromPrevious_Ok_length wi j v wij Hwij) as (Hh3 & Hw3 & _).
  destruct (setWayPointDurationFromPrevious_Ok_length wj i u wji Hwji) as (Hh4 & Hw4 & _).
  assert (Hds : ds wji = ds wij).
  { apply list_eq. intros k.
    rewrite (setWayPointDurationFromPrevious_lookup_Ok wi j v wij k Hwij).
    rewrite (setWayPointDurationFromPrevious_lookup_Ok wj i u wji k Hwji).
    rewrite (setWayPointDurationFromPrevious_lookup_Ok w i u wi k Hwi).
    rewrite (setWayPointDurationFromPrevious_lookup_Ok w j v wj k Hwj).
    repeat case_decide; try done; try lia. }
  destruct wij as [hij [wsij dsij]], wji as [hji [wsji dsji]]; cbn in *.
  f_equal; [congruence|]. f_equal; [congruence|done].
Qed.
End DurationRoundTrip.

(** ** Adding waypoints by value *)

Section AddByValue.
Context {RobotState : Type}.
Variable update : RobotState → RobotState.
Implicit Types (w : World RobotState) (state : RobotState) (dt : double) (index j : N).

Local Abbreviation ws w := (waypoints_ (self w)).
Local Abbreviation ds w := (duration_from_previous_ (self w)).

(** The address [std::make_shared] hands out in world [w]. *)
Local Abbreviation new_loc w := (fresh (dom (heap w)) : loc).

Lemma new_loc_fresh w : heap w !! new_loc w = None.
Proof. apply not_elem_of_dom. apply is_fresh. Qed.

Lemma addSuffixWayPoint_computed w state dt :
  addSuffixWayPoint update state dt w =
    Ok ((), {| heap := <[new_loc w := update state]> (heap w);
               self := {| waypoints_ := ws w ++ [Some (new_loc w)];
                          duration_from_previous_ := ds w ++ [dt] |} |}).
Proof.
  unfold addSuffixWayPoint, make_shared, addSuffixWayPoint_ptr, deref_update.
  unfold_M. rewrite lookup_insert_eq. unfold_M. by rewrite insert_insert_eq.
Qed.

Lemma addPrefixWayPoint_computed w state dt :
  addPrefixWayPoint update state dt w =
    Ok ((), {| heap := <[new_loc w := update state]> (heap w);
               self := {| waypoints_ := Some (new_loc w) :: ws w;
                          duration_from_previous_ := dt :: ds w |} |}).
Proof.
  unfold addPrefixWayPoint, make_shared, addPrefixWayPoint_ptr, deref_update.
  unfold_M. rewrite lookup_insert_eq. unfold_M. by rewrite insert_insert_eq.
Qed.

Lemma insertWayPoint_computed w index state dt :
  (index ≤ Deque.size (ws w))%N → (index ≤ Deque.size (ds w))%N →
  insertWayPoint update index state dt w =
    Ok ((), {| heap := <[new_loc w := update state]> (heap w);
               self := {| waypoints_ :=
                            take (N.to_nat index) (ws w) ++
                            Some (new_loc w) :: drop (N.to_nat index) (ws w);
                          duration_from_previous_ :=
                            take (N.to_nat index) (ds w) ++
                            dt :: drop (N.to_nat index) (ds w) |} |}).
Proof.
  intros Hw Hd.
  unfold insertWayPoint, make_shared, insertWayPoint_ptr, deref_update.
  unfold_M. rewrite lookup_insert_eq. unfold_M.
  unfold Deque.insert_.
  destruct (N.leb_spec index (Deque.size (ws w))); [|lia]. unfold_M.
  destruct (N.leb_spec index (Deque.size (ds w))); [|lia]. unfold_M.
  by rewrite insert_insert_eq.
Qed.

Lemma insertWayPoint_out_of_range w index state dt :
  (Deque.size (ws w) < index)%N ∨ (Deque.size (ds w) < index)%N →
  insertWayPoint update index state dt w = Undefined.
Proof.
  intros Hout.
  unfold insertWayPoint, make_shared, insertWayPoint_ptr, deref_update.
  unfold_M. rewrite lookup_insert_eq. unfold_M.
  unfold Deque.insert_.
  destruct (N.leb_spec index (Deque.size (ws w))); [|done]. unfold_M.
  by destruct (N.leb_spec index (Deque.size (ds w))); [lia|].
Qed.
End AddByValue.

(** ** Reading waypoints back *)

Lemma lookup_take_cons_drop {A : Type} (d : list A) (i : nat) (x : A) (k : nat) :
  i ≤ length d →
  (take i d ++ x :: drop i d) !! k =
    if decide (k < i) then d !! k
    else if decide (k = i) then Some x
    else d !! (k - 1).
Proof.
  intros Hi.
  assert (Hlen : length (take i d) = i) by (rewrite length_take; lia).
  repeat case_decide; subst.
  - rewrite lookup_app_l by lia. by rewrite lookup_take_lt.
  - rewrite lookup_app_r by lia. by rewrite Hlen, Nat.sub_diag.
  - rewrite lookup_app_r by lia. rewrite Hlen.
    destruct (k - i) as [|n] eqn:Hk; [lia|].
    change (drop i d !! n = d !! (k - 1)).
    rewrite lookup_drop. f_equal. lia.
Qed.

Section ReadBack.
Context {RobotState : Type}.
Implicit Types (w : World RobotState) (l : loc) (s : RobotState) (index : N).

Local Abbreviation ws w := (waypoints_ (self w)).

Lemma getWayPoint_lookup w index l s :
  ws w !! N.to_nat index = Some (Some l) → heap w !! l = Some s →
  getWayPoint index w = Ok (s, w).
Proof.
  intros Hp Hs. unfold getWayPoint, deref, Deque.at_. unfold_M.
  apply lookup_lt_Some in Hp as Hlt.
  destruct (N.ltb_spec index (Deque.size (ws w))) as [_|Hge].
  - unfold RobotStatePtr in *. rewrite Hp. unfold_M. by rewrite Hs.
  - unfold Deque.size, RobotStatePtr in *. lia.
Qed.

Lemma getWayPoint_out_of_range w index :
  (Deque.size (ws w) ≤ index)%N → getWayPoint index w = Undefined.
Proof.
  intros Hge. unfold getWayPoint, Deque.at_. unfold_M.
  by destruct (N.ltb_spec index (Deque.size (ws w))); [lia|].
Qed.

Lemma getLastWayPoint_snoc w xs l s :
  ws w = xs ++ [Some l] → heap w !! l = Some s →
  getLastWayPoint w = Ok (s, w).
Proof.
  intros Hws Hs. unfold getLastWayPoint, deref, DequeEnds.back. unfold_M.
  rewrite Hws, last_snoc. unfold_M. by rewrite Hs.
Qed.

Lemma getFirstWayPoint_cons w xs l s :
  ws w = Some l :: xs → heap w !! l = Some s →
  getFirstWayPoint w = Ok (s, w).
Proof.
  intros Hws Hs. unfold getFirstWayPoint, deref, DequeEnds.front. unfold_M.
  rewrite Hws. unfold_M. by rewrite Hs.
Qed.
End ReadBack.

Section AddByValueClaims.
Context {RobotState : Type}.
Variable update : RobotState → RobotState.
Implicit Types (w : World RobotState) (state : RobotState) (dt : double) (index j : N).

Local Abbreviation ws w := (waypoints_ (self w)).
Local Abbreviation ds w := (duration_from_previous_ (self w)).

(** X5: [addSuffixWayPoint(const RobotState&, dt)] always returns.
    Afterwards there is one more waypoint, the last waypoint is the
    updated copy of the state passed in, the duration at the old end of
    the duration deque is [dt], and every duration in front of it is
    unchanged. *)
Theorem addSuffixWayPoint_appends w state dt :
  ∃ w', addSuffixWayPoint update state dt w = Ok ((), w') ∧
        getWayPointCount w' = Ok ((Deque.size (ws w) + 1)%N, w') ∧
        getLastWayPoint w' = Ok (update state, w') ∧
        getWayPointDurationFromPrevious (Deque.size (ds w)) w' = Ok (dt, w') ∧
        ∀ j v, ds w !! N.to_nat j = Some v →
               getWayPointDurationFromPrevious j w' = Ok (v, w').
Proof.
  eexists. split; [apply addSuffixWayPoint_computed|].
  set (w' := mkWorld _ _). split_and!.
  - unfold getWayPointCount. unfold_M. subst w'. cbn.
    do 2 f_equal. unfold Deque.size. rewrite length_app. cbn. lia.
  - eapply getLastWayPoint_snoc; [done|]. apply lookup_insert_eq.
  - rewrite getWayPointDurationFromPrevious_lookup. subst w'. cbn.
    unfold Deque.size. rewrite Nat2N.id.
    by rewrite lookup_app_r, Nat.sub_diag by lia.
  - intros j v Hv. rewrite getWayPointDurationFromPrevious_lookup. subst w'. cbn.
    rewrite lookup_app_l by (by eapply lookup_lt_Some). by rewrite Hv.
Qed.

(** X6: [addPrefixWayPoint(const RobotState&, dt)] always returns.
    Afterwards there is one more waypoint, the first waypoint is the
    updated copy of the state passed in, the duration at index 0 is
    [dt], and every old duration is found one index further. *)
Theorem addPrefixWayPoint_prepends w state dt :
  ∃ w', addPrefixWayPoint update state dt w = Ok ((), w') ∧
        getWayPointCount w' = Ok ((Deque.size (ws w) + 1)%N, w') ∧
        getFirstWayPoint w' = Ok (update state, w') ∧
        getWayPointDurationFromPrevious 0 w' = Ok (dt, w') ∧
        ∀ j v, ds w !! N.to_nat j = Some v →
               getWayPointDurationFromPrevious (j + 1) w' = Ok (v, w').
Proof.
  eexists. split; [apply addPrefixWayPoint_computed|].
  set (w' := mkWorld _ _). split_and!.
  - unfold getWayPointCount. unfold_M. subst w'. cbn.
    do 2 f_equal. unfold Deque.size. cbn. lia.
  - eapply getFirstWayPoint_cons; [done|]. apply lookup_insert_eq.
  - by rewrite getWayPointDurationFromPrevious_lookup.
  - intros j v Hv. rewrite getWayPointDurationFromPrevious_lookup. subst w'. cbn.
    replace (N.to_nat (j + 1)) with (S (N.to_nat j)) by lia.
    change ((dt :: ds w) !! S (N.to_nat j)) with (ds w !! N.to_nat j).
    by rewrite Hv.
Qed.

(** X7: [insertWayPoint(index, const RobotState&, dt)] is defined
    exactly when [index] is at most the length of both deques; past
    either end the iterator [begin() + index] is invalid. *)
Theorem insertWayPoint_defined_iff w index state dt :
  (∃ w', insertWayPoint update index state dt w = Ok ((), w')) ↔
  (index ≤ Deque.size (ws w))%N ∧ (index ≤ Deque.size (ds w))%N.
Proof.
  split.
  - intros [w' Hrun].
    destruct (N.le_gt_cases index (Deque.size (ws w))) as [Hw|Hw];
      destruct (N.le_gt_cases index (Deque.size (ds w))) as [Hd|Hd];
      try done;
      rewrite insertWayPoint_out_of_range in Hrun by auto; done.
  - intros [Hw Hd]. eexists. by apply insertWayPoint_computed.
Qed.

(** X8: after [insertWayPoint(index, state, dt)] with [index] inside
    both deques, the waypoint at [index] is the updated copy of
    [state], the duration at [index] is [dt], durations in front of
    [index] keep their index and durations from [index] on move one
    index up. *)
Theorem insertWayPoint_inserts w index state dt :
  (index ≤ Deque.size (ws w))%N → (index ≤ Deque.size (ds w))%N →
  ∃ w', insertWayPoint update index state dt w = Ok ((), w') ∧
        getWayPointCount w' = Ok ((Deque.size (ws w) + 1)%N, w') ∧
        getWayPoint index w' = Ok (update state, w') ∧
        getWayPointDurationFromPrevious index w' = Ok (dt, w') ∧
        (∀ j v, (j < index)%N → ds w !! N.to_nat j = Some v →
                getWayPointDurationFromPrevious j w' = Ok (v, w')) ∧
        (∀ j v, (index ≤ j)%N → ds w !! N.to_nat j = Some v →
                getWayPointDurationFromPrevious (j + 1) w' = Ok (v, w')).
Proof.
  intros Hw Hd. eexists. split; [by apply insertWayPoint_computed|].
  set (w' := mkWorld _ _).
  unfold Deque.size in Hw, Hd. split_and!.
  - unfold getWayPointCount. unfold_M. subst w'. cbn. do 2 f_equal.
    unfold Deque.size. rewrite length_app, length_take. cbn. rewrite length_drop. lia.
  - eapply getWayPoint_lookup; [|apply lookup_insert_eq].
    subst w'. cbn. unfold RobotStatePtr in *.
    rewrite lookup_take_cons_drop by lia.
    rewrite decide_False by lia. by rewrite decide_True.
  - rewrite getWayPointDurationFromPrevious_lookup. subst w'. cbn.
    rewrite lookup_take_cons_drop by lia.
    rewrite decide_False by lia. by rewrite decide_True.
  - intros j v Hj Hv. rewrite getWayPointDurationFromPrevious_lookup. subst w'. cbn.
    rewrite lookup_take_cons_drop by lia.
    rewrite decide_True by lia. by rewrite Hv.
  - intros j v Hj Hv. rewrite getWayPointDurationFromPrevious_lookup. subst w'. cbn.
    rewrite lookup_take_cons_drop by lia.
    rewrite !decide_False by lia.
    replace (N.to_nat (j + 1) - 1) with (N.to_nat j) by lia. by rewrite Hv.
Qed.

(** X9: inserting at index 0 is [addPrefixWayPoint], on every
    trajectory; inserting at the waypoint count is [addSuffixWayPoint]
    whenever the two deques are equally long. *)
Theorem insertWayPoint_at_the_ends w state dt :
  insertWayPoint update 0 state dt w = addPrefixWayPoint update state dt w ∧
  (size_invariant (self w) →
   insertWayPoint update (Deque.size (ws w)) state dt w =
   addSuffixWayPoint update state dt w).
Proof.
  split.
  - rewrite insertWayPoint_computed, addPrefixWayPoint_computed by lia.
    cbn. by rewrite !drop_0.
  - unfold size_invariant. intros Hinv.
    rewrite insertWayPoint_computed, addSuffixWayPoint_computed by lia.
    unfold Deque.size in *.
    rewrite (take_ge (ws w)), (drop_ge (ws w)) by lia.
    by rewrite (take_ge (ds w)), (drop_ge (ds w)) by lia.
Qed.

(** X10: the overloads taking a [const RobotState&] copy the state:
    no robot state that was in the store before the call is changed by
    [addSuffixWayPoint], [addPrefixWayPoint] or [insertWayPoint]. *)
Theorem add_by_value_keeps_store w w' state dt index l s :
  addSuffixWayPoint update state dt w = Ok ((), w') ∨
  addPrefixWayPoint update state dt w = Ok ((), w') ∨
  insertWayPoint update index state dt w = Ok ((), w') →
  heap w !! l = Some s → heap w' !! l = Some s.
Proof.
  intros Hrun Hs.
  assert (Hne : fresh (dom (heap w)) ≠ l).
  { intros <-. by rewrite new_loc_fresh in Hs. }
  destruct Hrun as [Hrun|[Hrun|Hrun]].
  - rewrite addSuffixWayPoint_computed in Hrun. injection Hrun as <-. cbn.
    by rewrite lookup_insert_ne.
  - rewrite addPrefixWayPoint_computed in Hrun. injection Hrun as <-. cbn.
    by rewrite lookup_insert_ne.
  - destruct (N.le_gt_cases index (Deque.size (ws w))) as [Hw|Hw];
      destruct (N.le_gt_cases index (Deque.size (ds w))) as [Hd|Hd];
      try (rewrite insertWayPoint_out_of_range in Hrun by auto; done).
    rewrite insertWayPoint_computed in Hrun by done. injection Hrun as <-. cbn.
    by rewrite lookup_insert_ne.
Qed.
End AddByValueClaims.

(** ** Adding waypoints by pointer *)

Section AddByPointer.
Context {RobotState : Type}.
Variable update : RobotState → RobotState.
Implicit Types (w : World RobotState) (state : RobotStatePtr) (dt : double)
  (l : loc) (s : RobotState) (index : N).

Local Abbreviation ws w := (waypoints_ (self w)).
Local Abbreviation ds w := (duration_from_previous_ (self w)).

Lemma deref_update_inv state w w' :
  deref_update update state w = Ok ((), w') →
  ∃ l s, state = Some l ∧ heap w !! l = Some s ∧
         w' = {| heap := <[l := update s]> (heap w); self := self w |}.
Proof.
  unfold deref_update. destruct state as [l|]; [|done].
  destruct (heap w !! l) as [s|] eqn:Hs; [|done].
  intros [= <-]. eauto.
Qed.

Lemma addSuffixWayPoint_ptr_computed w l s dt :
  heap w !! l = Some s →
  addSuffixWayPoint_ptr update (Some l) dt w =
    Ok ((), {| heap := <[l := update s]> (heap w);
               self := {| waypoints_ := ws w ++ [Some l];
                          duration_from_previous_ := ds w ++ [dt] |} |}).
Proof.
  intros Hs. unfold addSuffixWayPoint_ptr, deref_update. unfold_M.
  rewrite Hs. by unfold_M.
Qed.

Lemma addPrefixWayPoint_ptr_computed w l s dt :
  heap w !! l = Some s →
  addPrefixWayPoint_ptr update (Some l) dt w =
    Ok ((), {| heap := <[l := update s]> (heap w);
               self := {| waypoints_ := Some l :: ws w;
                          duration_from_previous_ := dt :: ds w |} |}).
Proof.
  intros Hs. unfold addPrefixWayPoint_ptr, deref_update. unfold_M.
  rewrite Hs. by unfold_M.
Qed.

Lemma ptr_call_inv (m : M RobotState ()) state w w' :
  (deref_update update state;; m) w = Ok ((), w') →
  ∃ l s, state = Some l ∧ heap w !! l = Some s ∧
         m {| heap := <[l := update s]> (heap w); self := self w |} = Ok ((), w').
Proof.
  unfold mbind, M_bind.
  destruct (deref_update update state w) as [[[] w1]| |] eqn:Hup; [|done..].
  apply deref_update_inv in Hup as (l & s & -> & Hs & ->). eauto.
Qed.

(** X11: the [RobotStatePtr] overload of [addSuffixWayPoint] stores
    the caller's pointer itself, not a copy: on a non-null pointer it
    returns, the last waypoint pointer is that pointer, and the state
    it points to has been updated in place; every other robot state is
    unchanged. *)
Theorem addSuffixWayPoint_ptr_shares w l s dt :
  heap w !! l = Some s →
  ∃ w', addSuffixWayPoint_ptr update (Some l) dt w = Ok ((), w') ∧
        getLastWayPointPtr w' = Ok (Some l, w') ∧
        getLastWayPoint w' = Ok (update s, w') ∧
        heap w' = <[l := update s]> (heap w).
Proof.
  intros Hs. eexists. split; [by apply addSuffixWayPoint_ptr_computed|].
  split_and!; [| |done].
  - unfold getLastWayPointPtr, DequeEnds.back. unfold_M. by rewrite last_snoc.
  - eapply getLastWayPoint_snoc; [done|]. apply lookup_insert_eq.
Qed.

(** A null [RobotStatePtr] is never stored: each of the three pointer
    overloads is undefined on it, on every trajectory. *)
Lemma add_null_pointer_undefined w dt index :
  addSuffixWayPoint_ptr update None dt w = Undefined ∧
  addPrefixWayPoint_ptr update None dt w = Undefined ∧
  insertWayPoint_ptr update index None dt w = Undefined.
Proof. done. Qed.

(** X12: adding the same pointer twice gives two waypoints that are
    one robot state: both positions read the same state, which has
    been updated once per call. *)
Theorem addSuffixWayPoint_ptr_twice_aliases w l s dt1 dt2 :
  heap w !! l = Some s →
  ∃ w', (addSuffixWayPoint_ptr update (Some l) dt1;;
         addSuffixWayPoint_ptr update (Some l) dt2) w = Ok ((), w') ∧
        getWayPoint (Deque.size (ws w)) w' = Ok (update (update s), w') ∧
        getWayPoint (Deque.size (ws w) + 1) w' = Ok (update (update s), w').
Proof.
  intros Hs. unfold mbind at 1, M_bind at 1.
  rewrite (addSuffixWayPoint_ptr_computed w l s) by done.
  rewrite (addSuffixWayPoint_ptr_computed _ l (update s)) by apply lookup_insert_eq.
  cbn. eexists. split; [done|].
  unfold Deque.size.
  split; (eapply getWayPoint_lookup; [|cbn; apply lookup_insert_eq]); cbn;
    unfold RobotStatePtr in *.
  - rewrite <- app_assoc. rewrite lookup_app_r by lia.
    match goal with |- context [?a - ?b] => replace (a - b) with 0 by lia end. done.
  - rewrite <- app_assoc. rewrite lookup_app_r by lia.
    match goal with |- context [?a - ?b] => replace (a - b) with 1 by lia end. done.
Qed.
End AddByPointer.

(** ** Stored pointers stay valid *)

Section Liveness.
Context {RobotState : Type}.
Variable update : RobotState → RobotState.
Implicit Types (w : World RobotState) (c : call RobotState) (index : N).

Local Abbreviation ws w := (waypoints_ (self w)).
Local Abbreviation ds w := (duration_from_previous_ (self w)).
Local Abbreviation live_in h :=
  (λ p : RobotStatePtr, ∃ l, p = Some l ∧ is_Some (h !! l)).

Lemma live_in_insert (h : gmap loc RobotState) l s p :
  live_in h p → live_in (<[l := s]> h) p.
Proof.
  intros (l' & -> & Hl'). exists l'. split; [done|].
  destruct (decide (l = l')) as [->|Hne].
  - rewrite lookup_insert_eq. eauto.
  - by rewrite lookup_insert_ne.
Qed.

Lemma live_in_insert_new (h : gmap loc RobotState) l s :
  live_in (<[l := s]> h) (Some l).
Proof. exists l. rewrite lookup_insert_eq. eauto. Qed.

Lemma Forall_take_cons_drop {A : Type} (P : A → Prop) (d : list A) (i : nat) (x : A) :
  P x → Forall P d → Forall P (take i d ++ x :: drop i d).
Proof.
  intros Hx Hd. apply Forall_app. split.
  - by apply Forall_take.
  - apply Forall_cons. split; [done|]. by apply Forall_drop.
Qed.

Lemma setWayPointDurationFromPrevious_keeps_waypoints w index value w' :
  setWayPointDurationFromPrevious index value w = Ok ((), w') →
  heap w' = heap w ∧ ws w' = ws w.
Proof.
  destruct (N.lt_ge_cases index (Deque.size (ds w))) as [Hlt|Hge].
  - rewrite setWayPointDurationFromPrevious_in_range by done. by intros [= <-].
  - rewrite setWayPointDurationFromPrevious_grow_gen by done.
    destruct (index <? SizeT.add index 1)%N; [|done]. by intros [= <-].
Qed.

(** The pointer overloads, once the pointer has been dereferenced. *)
Lemma ptr_calls_inv w w' state dt index :
  addSuffixWayPoint_ptr update state dt w = Ok ((), w') ∨
  addPrefixWayPoint_ptr update state dt w = Ok ((), w') ∨
  insertWayPoint_ptr update index state dt w = Ok ((), w') →
  ∃ l s, state = Some l ∧ heap w !! l = Some s ∧
         heap w' = <[l := update s]> (heap w) ∧
         (ws w' = ws w ++ [Some l] ∨ ws w' = Some l :: ws w ∨
          ws w' = take (N.to_nat index) (ws w) ++ Some l :: drop (N.to_nat index) (ws w)).
Proof.
  intros [Hrun|[Hrun|Hrun]];
    apply ptr_call_inv in Hrun as (l & s & -> & Hs & Hrun);
    exists l, s; (split; [done|]); (split; [done|]); revert Hrun; unfold_M.
  - intros [= <-]. cbn. auto.
  - intros [= <-]. cbn. auto.
  - unfold Deque.insert_.
    destruct (index <=? Deque.size (ws w))%N; [|done]. unfold_M.
    destruct (index <=? Deque.size (ds w))%N; [|done]. unfold_M.
    intros [= <-]. cbn. auto.
Qed.

Lemma run_waypoints_live c w w' :
  run update c w = Ok ((), w') → waypoints_live w → waypoints_live w'.
Proof.
  unfold waypoints_live. intros Hrun Hlive.
  destruct c as [s dt|p dt|s dt|p dt|i s dt|i p dt|i v|]; cbn in Hrun.
  - rewrite addSuffixWayPoint_computed in Hrun. injection Hrun as <-. cbn.
    apply Forall_app. split.
    + eapply Forall_impl; [done|]. intros p. apply live_in_insert.
    + apply Forall_singleton, live_in_insert_new.
  - destruct (ptr_calls_inv w w' p dt 0) as (l & s & -> & Hs & -> & Hws); [auto|].
    destruct Hws as [-> | [-> | ->]].
    + apply Forall_app. split.
      * eapply Forall_impl; [done|]. intros p. apply live_in_insert.
      * apply Forall_singleton, live_in_insert_new.
    + apply Forall_cons. split; [apply live_in_insert_new|].
      eapply Forall_impl; [done|]. intros p. apply live_in_insert.
    + apply Forall_take_cons_drop; [apply live_in_insert_new|].
      eapply Forall_impl; [done|]. intros p. apply live_in_insert.
  - rewrite addPrefixWayPoint_computed in Hrun. injection Hrun as <-. cbn.
    apply Forall_cons. split; [apply live_in_insert_new|].
    eapply Forall_impl; [done|]. intros p. apply live_in_insert.
  - destruct (ptr_calls_inv w w' p dt 0) as (l & s & -> & Hs & -> & Hws); [auto|].
    destruct Hws as [-> | [-> | ->]].
    + apply Forall_app. split.
      * eapply Forall_impl; [done|]. intros p. apply live_in_insert.
      * apply Forall_singleton, live_in_insert_new.
    + apply Forall_cons. split; [apply live_in_insert_new|].
      eapply Forall_impl; [done|]. intros p. apply live_in_insert.
    + apply Forall_take_cons_drop; [apply live_in_insert_new|].
      eapply Forall_impl; [done|]. intros p. apply live_in_insert.
  - destruct (N.le_gt_cases i (Deque.size (ws w))) as [Hw|Hw];
      destruct (N.le_gt_cases i (Deque.size (ds w))) as [Hd|Hd];
      try (rewrite insertWayPoint_out_of_range in Hrun by auto; done).
    rewrite insertWayPoint_computed in Hrun by done. injection Hrun as <-. cbn.
    apply Forall_take_cons_drop; [apply live_in_insert_new|].
    eapply Forall_impl; [done|]. intros p. apply live_in_insert.
  - destruct (ptr_calls_inv w w' p dt i) as (l & s & -> & Hs & -> & Hws); [auto|].
    destruct Hws as [-> | [-> | ->]].
    + apply Forall_app. split.
      * eapply Forall_impl; [done|]. intros p. apply live_in_insert.
      * apply Forall_singleton, live_in_insert_new.
    + apply Forall_cons. split; [apply live_in_insert_new|].
      eapply Forall_impl; [done|]. intros p. apply live_in_insert.
    + apply Forall_take_cons_drop; [apply live_in_insert_new|].
      eapply Forall_impl; [done|]. intros p. apply live_in_insert.
  - apply setWayPointDurationFromPrevious_keeps_waypoints in Hrun as [-> ->]. done.
  - destruct (clear_Ok w) as (w'' & Hrun' & Hw & _).
    rewrite Hrun in Hrun'. injection Hrun' as <-. rewrite Hw. constructor.
Qed.

Lemma reachable_waypoints_live w : reachable update w → waypoints_live w.
Proof.
  induction 1 as [h|w c w' _ IH _ Hrun]; [constructor|].
  by eapply run_waypoints_live.
Qed.

(** X13: in every trajectory built by the public calls,
    [getWayPoint(index)] returns a robot state, with nothing changed,
    exactly for the indices below [getWayPointCount()]: no stored
    pointer is null, and past the end the access is undefined. *)
Theorem getWayPoint_defined_iff w index :
  reachable update w →
  (∃ s, getWayPoint index w = Ok (s, w)) ↔ (index < Deque.size (ws w))%N.
Proof.
  intros Hreach. split.
  - intros [s Hget].
    destruct (N.lt_ge_cases index (Deque.size (ws w))) as [Hlt|Hge]; [done|].
    by rewrite getWayPoint_out_of_range in Hget.
  - intros Hlt. apply DequeFacts.size_lt_length in Hlt.
    destruct (lookup_lt_is_Some_2 _ _ Hlt) as [p Hp].
    pose proof (reachable_waypoints_live w Hreach) as Hlive.
    unfold waypoints_live in Hlive. rewrite Forall_lookup in Hlive.
    destruct (Hlive _ _ Hp) as (l & -> & s & Hs).
    exists s. by eapply getWayPoint_lookup.
Qed.

(** X14: in every trajectory reached from a fresh one by
    [addSuffixWayPoint], [addPrefixWayPoint], [insertWayPoint],
    [setWayPointDurationFromPrevious] and [clear] (writes through the
    [RobotStatePtr&] that [getWayPointPtr] and its siblings return are
    not among them), [getFirstWayPoint()] and [getLastWayPoint()]
    return a robot state when there is a waypoint, and are undefined
    when [empty()] is true. *)
Theorem first_last_defined_iff_nonempty w :
  reachable update w →
  ∃ b, empty w = Ok (b, w) ∧
       (b = false → ∃ s1 s2, getFirstWayPoint w = Ok (s1, w) ∧
                            getLastWayPoint w = Ok (s2, w)) ∧
       (b = true → getFirstWayPoint w = Undefined ∧ getLastWayPoint w = Undefined).
Proof.
  intros Hreach.
  pose proof (reachable_waypoints_live w Hreach) as Hlive.
  unfold waypoints_live in Hlive.
  eexists. split; [done|]. split.
  - intros Hne. apply bool_decide_eq_false in Hne.
    destruct (ws w) as [|p xs] eqn:Hws; [done|].
    destruct (exists_last (l := p :: xs)) as (ys & q & Hsnoc); [done|].
    pose proof Hlive as Hlive'. rewrite Hsnoc in Hlive'.
    apply Forall_app in Hlive' as [_ Hq].
    apply Forall_singleton in Hq as (l2 & -> & s2 & Hs2).
    apply Forall_cons in Hlive as [(l1 & -> & s1 & Hs1) _].
    exists s1, s2. split.
    + by eapply getFirstWayPoint_cons.
    + eapply getLastWayPoint_snoc; [|done]. by rewrite Hws.
  - intros Hemp. apply bool_decide_eq_true in Hemp.
    unfold getFirstWayPoint, getLastWayPoint. unfold_M. by rewrite Hemp.
Qed.
End Liveness.

(** ** Clearing, counting and iterating *)

Section Whole.
Context {RobotState : Type}.
Variable update : RobotState → RobotState.
Implicit Types (w : World RobotState) (index : N).

Local Abbreviation ws w := (waypoints_ (self w)).
Local Abbreviation ds w := (duration_from_previous_ (self w)).

(** X15: [clear()] always returns, also on a trajectory whose two
    deques differ in length, and leaves both deques empty as in a
    freshly constructed trajectory: [empty()] is true, [size()]
    returns 0 without asserting and every duration reads [0.0]. *)
Theorem clear_resets w :
  ∃ w', clear w = Ok ((), w') ∧
        self w' = empty_trajectory ∧
        empty w' = Ok (true, w') ∧
        size w' = Ok (0%N, w') ∧
        ∀ index, getWayPointDurationFromPrevious index w' = Ok (zero, w').
Proof.
  eexists. split; [unfold clear; unfold_M; done|].
  split_and!; try done.
  intros index. by rewrite getWayPointDurationFromPrevious_lookup.
Qed.

(** X16: in every trajectory built by the public calls each waypoint
    has a stored duration: for an index below [getWayPointCount()],
    [getWayPointDurationFromPrevious] returns an entry of the duration
    deque, never the [0.0] of its out-of-range branch. *)
Theorem every_waypoint_has_a_duration w index :
  reachable update w → (index < Deque.size (ws w))%N →
  ∃ v, ds w !! N.to_nat index = Some v ∧
       getWayPointDurationFromPrevious index w = Ok (v, w).
Proof.
  intros Hreach Hlt.
  pose proof (reachable_waypoints_le_durations update w Hreach) as Hle.
  apply getWayPointDurationFromPrevious_in_range. lia.
Qed.

(** X17: as long as [setWayPointDurationFromPrevious] is only called
    on indices that already exist, the assertions hold: [size()]
    returns the waypoint count and [begin()] and [end()] return the
    iterators at 0 and at the count. *)
Theorem size_begin_end_without_growth w :
  reachable_in_range update w →
  size w = Ok (Deque.size (ws w), w) ∧
  begin_ w = Ok (mkIterator 0 0, w) ∧
  end_ w = Ok (mkIterator (Deque.size (ws w)) (Deque.size (ws w)), w).
Proof.
  intros Hreach.
  pose proof (reachable_in_range_size_invariant update w Hreach) as Hinv.
  split; [by apply size_Ok|].
  unfold size_invariant in Hinv. unfold begin_, end_. unfold_M.
  rewrite <- Hinv, N.eqb_refl. done.
Qed.

(** One run of the loop from position [k]. *)
Lemma range_for_from_spec w (n k fuel : nat) acc :
  length (ws w) = n → length (ds w) = n → k ≤ n → n - k < fuel →
  range_for_from fuel (mkIterator (N.of_nat k) (N.of_nat k))
                 (mkIterator (N.of_nat n) (N.of_nat n)) acc w =
    Ok (Some (acc ++ drop k (zip (ws w) (ds w))), w).
Proof.
  intros Hws Hds. revert k acc.
  induction fuel as [|fuel IH]; intros k acc Hk Hfuel; [lia|].
  cbn [range_for_from]. unfold Iterator_ne, Iterator_eq. cbn.
  destruct (decide (k = n)) as [->|Hne].
  - rewrite N.eqb_refl. cbn.
    rewrite drop_ge, app_nil_r; [done|].
    rewrite length_zip_with. lia.
  - destruct (N.eqb_spec (N.of_nat k) (N.of_nat n)) as [Heq|_]; [lia|]. cbn.
    assert (Hkn : k < n) by lia.
    destruct (lookup_lt_is_Some_2 (ws w) k) as [p Hp]; [lia|].
    destruct (lookup_lt_is_Some_2 (ds w) k) as [d Hd]; [lia|].
    assert (Hz : zip (ws w) (ds w) !! k = Some (p, d)).
    { rewrite lookup_zip_with, Hp. cbn. by rewrite Hd. }
    unfold Iterator_deref, Iterator_incr, Deque.at_, Deque.size. unfold_M. cbn.
    assert (Hltb : (N.of_nat k <? N.of_nat n)%N = true) by (apply N.ltb_lt; lia).
    unfold RobotStatePtr, double in *. rewrite !Hws, !Hds, !Hltb.
    rewrite Nat2N.id, Hp, Hd. cbn.
    rewrite !Hws, !Hds, !Hltb. cbn.
    replace (N.of_nat k + 1)%N with (N.of_nat (S k)) by lia.
    rewrite IH by lia.
    rewrite <- app_assoc. cbn. by rewrite <- (drop_S _ _ _ Hz).
Qed.

(** X18: on a trajectory whose two deques are equally long, the
    range-based [for] loop over the trajectory terminates after one
    iteration per waypoint, leaves the trajectory untouched and visits
    exactly the pairs (waypoint pointer, duration from previous), in
    index order. *)
Theorem range_for_visits_all w (fuel : nat) :
  size_invariant (self w) → length (ws w) < fuel →
  range_for fuel w = Ok (Some (zip (ws w) (ds w)), w).
Proof.
  unfold size_invariant, Deque.size. intros Hinv Hfuel.
  assert (Hlen : length (ds w) = length (ws w)) by lia.
  unfold range_for, begin_, end_. unfold_M. unfold Deque.size.
  rewrite !Hlen, N.eqb_refl. cbn. rewrite !Hlen, N.eqb_refl. cbn. rewrite ?Hlen.
  change 0%N with (N.of_nat 0).
  rewrite (range_for_from_spec w (length (ws w)) 0 fuel []) by lia.
  done.
Qed.
End Whole.

(** * MoveItCpp: loading the option structs *)

Section LoadFacts.
Import MoveItCpp.
Variables (JOINT_STATES ATTACHED_COLLISION_OBJECT MONITORED_PLANNING_SCENE PLANNING_SCENE : string).
Implicit Types (node : Node) (o r : PlanningSceneMonitorOptions) (p q : PlanningPipelineOptions).

Local Abbreviation psm_load :=
  (PlanningSceneMonitorOptions_load JOINT_STATES ATTACHED_COLLISION_OBJECT
     MONITORED_PLANNING_SCENE PLANNING_SCENE).

(** Each field from its own parameter, or its default. *)
Local Abbreviation psm_values node :=
  {| name := default "planning_scene_monitor"
       (node "planning_scene_monitor_options.name" ≫= as_string);
     robot_description := default "robot_description"
       (node "planning_scene_monitor_options.robot_description" ≫= as_string);
     joint_state_topic := default JOINT_STATES
       (node "planning_scene_monitor_options.joint_state_topic" ≫= as_string);
     attached_collision_object_topic := default ATTACHED_COLLISION_OBJECT
       (node "planning_scene_monitor_options.attached_collision_object_topic" ≫= as_string);
     monitored_planning_scene_topic := default MONITORED_PLANNING_SCENE
       (node "planning_scene_monitor_options.monitored_planning_scene_topic" ≫= as_string);
     publish_planning_scene_topic := default PLANNING_SCENE
       (node "planning_scene_monitor_options.publish_planning_scene_topic" ≫= as_string);
     wait_for_initial_state_timeout := default zero
       (node "planning_scene_monitor_options.wait_for_initial_state_timeout" ≫= as_double) |}.

(** Every parameter that is set has the type of its field. *)
Local Abbreviation psm_well_typed node :=
  (has_type as_string node "planning_scene_monitor_options.name" ∧
   has_type as_string node "planning_scene_monitor_options.robot_description" ∧
   has_type as_string node "planning_scene_monitor_options.joint_state_topic" ∧
   has_type as_string node "planning_scene_monitor_options.attached_collision_object_topic" ∧
   has_type as_string node "planning_scene_monitor_options.monitored_planning_scene_topic" ∧
   has_type as_string node "planning_scene_monitor_options.publish_planning_scene_topic" ∧
   has_type as_double node "planning_scene_monitor_options.wait_for_initial_state_timeout").

Local Abbreviation pp_values node p :=
  {| pipeline_names := default (pipeline_names p)
       (node "planning_pipelines.pipeline_names" ≫= as_string_array);
     parent_namespace := default (parent_namespace p)
       (node "planning_pipelines.namespace" ≫= as_string) |}.

Local Abbreviation pp_well_typed node :=
  (has_type as_string_array node "planning_pipelines.pipeline_names" ∧
   has_type as_string node "planning_pipelines.namespace").

(** Case analysis on the parameters a [load] asks for, one after the
    other; a throwing step ends the run. *)
Local Ltac step_in H node :=
  match type of H with
  | context [node ?k] =>
      let v := fresh "v" in
      let Hk := fresh "Hk" in
      destruct (node k) as [v|] eqn:Hk; cbn in H;
      [ match type of H with
        | context [as_string v] =>
            let Hv := fresh "Hv" in destruct (as_string v) eqn:Hv; cbn in H
        | context [as_double v] =>
            let Hv := fresh "Hv" in destruct (as_double v) eqn:Hv; cbn in H
        | context [as_string_array v] =>
            let Hv := fresh "Hv" in destruct (as_string_array v) eqn:Hv; cbn in H
        end
      | ];
      try discriminate H
  end.

Local Ltac use_equations :=
  unfold mbind, option_bind, has_type;
  repeat (match goal with Hv : _ = _ |- _ => rewrite Hv end; cbn).

Local Ltac step_has_type node :=
  match goal with
  | H : has_type _ node ?k |- _ =>
      let v := fresh "v" in
      let Hk := fresh "Hk" in
      unfold has_type in H;
      destruct (node k) as [v|] eqn:Hk; [destruct H as [? H]; rewrite H|]; clear H
  end.

Lemma psm_load_Returned node o r :
  psm_load node o = Returned r → r = psm_values node ∧ psm_well_typed node.
Proof.
  unfold PlanningSceneMonitorOptions_load, seq, get_parameter_or.
  cbv [String.append]. intros H.
  repeat step_in H node;
    injection H as <-; use_equations; split_and!; eauto.
Qed.

Lemma psm_load_well_typed node o :
  psm_well_typed node → psm_load node o = Returned (psm_values node).
Proof.
  unfold PlanningSceneMonitorOptions_load, seq, get_parameter_or.
  cbv [String.append]. intros (H1 & H2 & H3 & H4 & H5 & H6 & H7).
  unfold mbind, option_bind.
  repeat step_has_type node; done.
Qed.

Lemma pp_load_Returned node p q :
  PlanningPipelineOptions_load node p = Returned q →
  q = pp_values node p ∧ pp_well_typed node.
Proof.
  unfold PlanningPipelineOptions_load, seq, get_parameter.
  cbv [String.append]. intros H.
  repeat step_in H node;
    injection H as <-; use_equations; split_and!; eauto; by destruct p.
Qed.

Lemma pp_load_well_typed node p :
  pp_well_typed node → PlanningPipelineOptions_load node p = Returned (pp_values node p).
Proof.
  unfold PlanningPipelineOptions_load, seq, get_parameter.
  cbv [String.append]. intros (H1 & H2).
  unfold mbind, option_bind.
  repeat step_has_type node; cbn; try done; by destruct p.
Qed.

(** X19: when [PlanningSceneMonitorOptions::load] returns, every one
    of the seven fields has been assigned: each holds the value of its
    own parameter "planning_scene_monitor_options.<field>" if that is
    set, and its default otherwise. Nothing of the struct's previous
    content survives. *)
Theorem PlanningSceneMonitorOptions_load_reads node o r :
  PlanningSceneMonitorOptions_load JOINT_STATES ATTACHED_COLLISION_OBJECT
    MONITORED_PLANNING_SCENE PLANNING_SCENE node o = Returned r →
  r = psm_values node.
Proof. intros H. by apply psm_load_Returned in H as [-> _]. Qed.

(** X20: [PlanningSceneMonitorOptions::load] returns exactly when
    every parameter it asks for is either not set or has the type of
    its field (a string for the six names, a double for the timeout);
    otherwise it throws. Whether it returns does not depend on the
    struct it is called on. *)
Theorem PlanningSceneMonitorOptions_load_returns_iff node o :
  (∃ r, PlanningSceneMonitorOptions_load JOINT_STATES ATTACHED_COLLISION_OBJECT
    MONITORED_PLANNING_SCENE PLANNING_SCENE node o = Returned r) ↔
  psm_well_typed node.
Proof.
  split.
  - intros [r H]. by apply psm_load_Returned in H as [_ Hwt].
  - intros Hwt. eexists. by apply psm_load_well_typed.
Qed.

(** X21: [PlanningPipelineOptions::load] uses [get_parameter] without
    a default: when it returns, a field whose parameter
    ("planning_pipelines.pipeline_names", "planning_pipelines.namespace")
    is not set keeps the content it had before the call, and a field
    whose parameter is set holds that value. *)
Theorem PlanningPipelineOptions_load_reads node p q :
  PlanningPipelineOptions_load node p = Returned q → q = pp_values node p.
Proof. intros H. by apply pp_load_Returned in H as [-> _]. Qed.

(** X22: the constructor [Options(node)] yields an object exactly when
    all nine parameters are unset or of the right type, and the object
    is then determined by the node alone: the indeterminate initial
    value of [wait_for_initial_state_timeout] never shows, and unset
    pipeline parameters give an empty list and an empty namespace. *)
Theorem Options_ctor_spec (junk : double) node :
  (psm_well_typed node ∧ pp_well_typed node →
   Options_ctor JOINT_STATES ATTACHED_COLLISION_OBJECT MONITORED_PLANNING_SCENE
     PLANNING_SCENE junk node =
   Some (mkOptions (psm_values node) (pp_values node (mkPlanningPipelineOptions [] "")))) ∧
  (¬ (psm_well_typed node ∧ pp_well_typed node) →
   Options_ctor JOINT_STATES ATTACHED_COLLISION_OBJECT MONITORED_PLANNING_SCENE
     PLANNING_SCENE junk node = None).
Proof.
  unfold Options_ctor. split.
  - intros [Hpsm Hpp].
    rewrite psm_load_well_typed by done. by rewrite pp_load_well_typed by done.
  - intros Hnot.
    destruct (psm_load node _) as [r|r] eqn:Hr; [|done].
    apply psm_load_Returned in Hr as [_ Hpsm].
    destruct (PlanningPipelineOptions_load node _) as [q|q] eqn:Hq; [|done].
    apply pp_load_Returned in Hq as [_ Hpp]. by destruct Hnot.
Qed.
End LoadFacts.

(** * The theorems at work on the sample inputs *)

Lemma example_one_waypoint_reachable : reachable S example_one_waypoint.
Proof.
  apply (reachable_call nat S (initial ∅) (AddSuffixWayPoint 7 0.5%float));
    [apply reachable_initial | exact I | vm_compute; reflexivity].
Defined.

Lemma example_one_waypoint_reachable_in_range : reachable_in_range S example_one_waypoint.
Proof.
  apply (in_range_call S (initial ∅) (AddSuffixWayPoint 7 0.5%float));
    [apply in_range_initial | exact I | intros [] | vm_compute; reflexivity].
Defined.

Lemma set_then_get_duration_witness :
  let w' := mkWorld (∅ : gmap loc nat) (mkRobotTrajectory [] [0.5; 1.5; 0; 2]%float) in
  setWayPointDurationFromPrevious 3 2%float example_durations = Ok ((), w') ∧
  getWayPointDurationFromPrevious 3 w' = Ok (2%float, w').
Proof.
  intros w'. split; [reflexivity|].
  apply (set_then_get_duration example_durations 3 2%float w'). reflexivity.
Defined.

Lemma set_keeps_other_durations_witness :
  let w' := mkWorld (∅ : gmap loc nat) (mkRobotTrajectory [] [0.5; 1.5; 0; 2]%float) in
  (3 < SizeT.SIZE_MAX)%N ∧
  setWayPointDurationFromPrevious 3 2%float example_durations = Ok ((), w') ∧
  (2 ≠ 3)%N ∧
  ∃ v, getWayPointDurationFromPrevious 2 example_durations = Ok (v, example_durations) ∧
       getWayPointDurationFromPrevious 2 w' = Ok (v, w').
Proof.
  intros w'. split_and!; [reflexivity|reflexivity|lia|].
  apply (set_keeps_other_durations example_durations 3 2%float w' 2);
    [reflexivity|reflexivity|lia].
Defined.

Lemma set_duration_commute_witness :
  let wi := mkWorld (∅ : gmap loc nat) (mkRobotTrajectory [] [0.5; 4]%float) in
  let wj := mkWorld (∅ : gmap loc nat) (mkRobotTrajectory [] [0.5; 1.5; 0; 2]%float) in
  setWayPointDurationFromPrevious 1 4%float example_durations = Ok ((), wi) ∧
  setWayPointDurationFromPrevious 3 2%float example_durations = Ok ((), wj) ∧
  (1 ≠ 3)%N ∧
  ∃ w', (setWayPointDurationFromPrevious 1 4%float;;
         setWayPointDurationFromPrevious 3 2%float) example_durations = Ok ((), w') ∧
        (setWayPointDurationFromPrevious 3 2%float;;
         setWayPointDurationFromPrevious 1 4%float) example_durations = Ok ((), w').
Proof.
  intros wi wj. split_and!; [reflexivity|reflexivity|lia|].
  apply (set_duration_commute example_durations 1 3 4%float 2%float wi wj);
    [reflexivity|reflexivity|lia].
Defined.

Lemma insertWayPoint_inserts_witness :
  let w := example_one_waypoint in
  (1 ≤ Deque.size (waypoints_ (self w)))%N ∧
  (1 ≤ Deque.size (duration_from_previous_ (self w)))%N ∧
  ∃ w', insertWayPoint S 1 40 1.5%float w = Ok ((), w') ∧
        getWayPointCount w' = Ok ((Deque.size (waypoints_ (self w)) + 1)%N, w') ∧
        getWayPoint 1 w' = Ok (S 40, w') ∧
        getWayPointDurationFromPrevious 1 w' = Ok (1.5%float, w') ∧
        (∀ j v, (j < 1)%N → duration_from_previous_ (self w) !! N.to_nat j = Some v →
                getWayPointDurationFromPrevious j w' = Ok (v, w')) ∧
        (∀ j v, (1 ≤ j)%N → duration_from_previous_ (self w) !! N.to_nat j = Some v →
                getWayPointDurationFromPrevious (j + 1) w' = Ok (v, w')).
Proof.
  intros w. split_and!; [reflexivity|reflexivity|].
  apply (insertWayPoint_inserts S w 1 40 1.5%float); reflexivity.
Defined.

Lemma add_by_value_keeps_store_witness :
  let w' := mkWorld (<[2%positive := 41]> (<[1%positive := 8]> ∅))
                    (mkRobotTrajectory [Some 1%positive; Some 2%positive] [0.5; 1.5]%float) in
  (addSuffixWayPoint S 40 1.5%float example_one_waypoint = Ok ((), w') ∨
   addPrefixWayPoint S 40 1.5%float example_one_waypoint = Ok ((), w') ∨
   insertWayPoint S 0 40 1.5%float example_one_waypoint = Ok ((), w')) ∧
  heap example_one_waypoint !! 1%positive = Some 8 ∧
  heap w' !! 1%positive = Some 8.
Proof.
  intros w'.
  assert (Hrun : addSuffixWayPoint S 40 1.5%float example_one_waypoint = Ok ((), w'))
    by (vm_compute; reflexivity).
  split_and!; [by left|reflexivity|].
  apply (add_by_value_keeps_store S example_one_waypoint w' 40 1.5%float 0 1%positive 8);
    [by left|reflexivity].
Defined.

Lemma addSuffixWayPoint_ptr_shares_witness :
  let w := example_one_waypoint in
  heap w !! 1%positive = Some 8 ∧
  ∃ w', addSuffixWayPoint_ptr S (Some 1%positive) 1.5%float w = Ok ((), w') ∧
        getLastWayPointPtr w' = Ok (Some 1%positive, w') ∧
        getLastWayPoint w' = Ok (S 8, w') ∧
        heap w' = <[1%positive := S 8]> (heap w).
Proof.
  intros w. split; [reflexivity|].
  apply (addSuffixWayPoint_ptr_shares S w 1%positive 8 1.5%float). reflexivity.
Defined.

Lemma addSuffixWayPoint_ptr_twice_aliases_witness :
  let w := example_one_waypoint in
  heap w !! 1%positive = Some 8 ∧
  ∃ w', (addSuffixWayPoint_ptr S (Some 1%positive) 1.5%float;;
         addSuffixWayPoint_ptr S (Some 1%positive) 2.5%float) w = Ok ((), w') ∧
        getWayPoint (Deque.size (waypoints_ (self w))) w' = Ok (S (S 8), w') ∧
        getWayPoint (Deque.size (waypoints_ (self w)) + 1) w' = Ok (S (S 8), w').
Proof.
  intros w. split; [reflexivity|].
  apply (addSuffixWayPoint_ptr_twice_aliases S w 1%positive 8 1.5%float 2.5%float).
  reflexivity.
Defined.

Lemma getWayPoint_defined_iff_witness :
  reachable S example_one_waypoint ∧
  ((∃ s, getWayPoint 0 example_one_waypoint = Ok (s, example_one_waypoint)) ↔
   (0 < Deque.size (waypoints_ (self example_one_waypoint)))%N).
Proof.
  split; [exact example_one_waypoint_reachable|].
  apply (getWayPoint_defined_iff S example_one_waypoint 0).
  exact example_one_waypoint_reachable.
Defined.

Lemma first_last_defined_iff_nonempty_witness :
  let w := example_one_waypoint in
  reachable S w ∧
  ∃ b, empty w = Ok (b, w) ∧
       (b = false → ∃ s1 s2, getFirstWayPoint w = Ok (s1, w) ∧
                            getLastWayPoint w = Ok (s2, w)) ∧
       (b = true → getFirstWayPoint w = Undefined ∧ getLastWayPoint w = Undefined).
Proof.
  intros w. split; [exact example_one_waypoint_reachable|].
  apply (first_last_defined_iff_nonempty S w).
  exact example_one_waypoint_reachable.
Defined.

Lemma every_waypoint_has_a_duration_witness :
  let w := example_one_waypoint in
  reachable S w ∧ (0 < Deque.size (waypoints_ (self w)))%N ∧
  ∃ v, duration_from_previous_ (self w) !! N.to_nat 0 = Some v ∧
       getWayPointDurationFromPrevious 0 w = Ok (v, w).
Proof.
  intros w. split_and!; [exact example_one_waypoint_reachable|reflexivity|].
  apply (every_waypoint_has_a_duration S w 0);
    [exact example_one_waypoint_reachable|reflexivity].
Defined.

Lemma size_begin_end_without_growth_witness :
  let w := example_one_waypoint in
  reachable_in_range S w ∧
  size w = Ok (Deque.size (waypoints_ (self w)), w) ∧
  begin_ w = Ok (mkIterator 0 0, w) ∧
  end_ w = Ok (mkIterator (Deque.size (waypoints_ (self w)))
                          (Deque.size (waypoints_ (self w))), w).
Proof.
  intros w. split; [exact example_one_waypoint_reachable_in_range|].
  apply (size_begin_end_without_growth S w).
  exact example_one_waypoint_reachable_in_range.
Defined.

Lemma range_for_visits_all_witness :
  let w := example_one_waypoint in
  size_invariant (self w) ∧ length (waypoints_ (self w)) < 2 ∧
  range_for 2 w =
    Ok (Some (zip (waypoints_ (self w)) (duration_from_previous_ (self w))), w).
Proof.
  intros w. split_and!; [reflexivity|cbn; lia|].
  apply (range_for_visits_all w 2); [reflexivity|cbn; lia].
Defined.

Lemma PlanningSceneMonitorOptions_load_reads_witness :
  let o := MoveItCpp.mkPlanningSceneMonitorOptions "a" "b" "c" "d" "e" "f" 1%float in
  let r := MoveItCpp.mkPlanningSceneMonitorOptions
             "psm" "robot_description" "joint_states" "attached_collision_object"
             "monitored_planning_scene" "planning_scene" zero in
  MoveItCpp.PlanningSceneMonitorOptions_load
    "joint_states" "attached_collision_object" "monitored_planning_scene" "planning_scene"
    example_node o = MoveItCpp.Returned r ∧
  r = MoveItCpp.mkPlanningSceneMonitorOptions
        "psm" "robot_description" "joint_states" "attached_collision_object"
        "monitored_planning_scene" "planning_scene" zero.
Proof.
  intros o r. split; [reflexivity|].
  exact (PlanningSceneMonitorOptions_load_reads
           "joint_states" "attached_collision_object" "monitored_planning_scene"
           "planning_scene" example_node o r eq_refl).
Defined.

Lemma PlanningPipelineOptions_load_reads_witness :
  let p := MoveItCpp.mkPlanningPipelineOptions ["ompl"] "old" in
  let q := MoveItCpp.mkPlanningPipelineOptions ["ompl"] "arm" in
  MoveItCpp.PlanningPipelineOptions_load example_node p = MoveItCpp.Returned q ∧
  q = MoveItCpp.mkPlanningPipelineOptions ["ompl"] "arm".
Proof.
  intros p q. split; [reflexivity|].
  exact (PlanningPipelineOptions_load_reads example_node p q eq_refl).
Defined.
